(** * gpm, lib/git.js: version selection, ref parsing, trust verification
      and tree hashing.

    A shallow embedding of the functions exported by [lib/git.js].  JavaScript
    strings are modelled as [string], every character standing for one code
    unit in the range U+0000..U+00FF; promises are modelled by their settled
    outcome; subprocesses by what they hand back to the callback. *)

From Stdlib Require Import ZArith NArith List String Ascii Bool Permutation Sorted Lia.
From Stdlib.Strings Require Import Byte.
From stdpp Require Import gmap strings sorting.
Import ListNotations.

#[local] Open Scope string_scope.
#[local] Open Scope list_scope.

(** ** JavaScript built-ins used by the module *)

Module Js.

(** The outcome of an awaited promise (or of a call that may throw). *)
Inductive outcome (E A : Type) : Type :=
| Resolved (a : A)
| Rejected (e : E).
Arguments Resolved {E A} a.
Arguments Rejected {E A} e.

Definition bind {E A B} (m : outcome E A) (k : A -> outcome E B) : outcome E B :=
  match m with
  | Resolved a => k a
  | Rejected e => Rejected e
  end.

(** [s.indexOf(p)]: the first index at which [p] occurs in [s], or [-1]. *)
Fixpoint indexOf (p s : string) : Z :=
  if String.prefix p s then 0%Z
  else match s with
       | EmptyString => (-1)%Z
       | String _ s' => let r := indexOf p s' in
                        if (r <? 0)%Z then (-1)%Z else (r + 1)%Z
       end.

(** [s.includes(p)]. *)
Definition includes (p s : string) : bool := (0 <=? indexOf p s)%Z.

Fixpoint drop (n : nat) (s : string) : string :=
  match n, s with
  | O, _ => s
  | S n', String _ s' => drop n' s'
  | S _, EmptyString => EmptyString
  end.

(** [s.replace(p, r)] with a string pattern: only the first occurrence of
    [p] is replaced.  (The callers pass [r = ''], so the [$]-patterns of the
    replacement string play no role.) *)
Fixpoint replace (p r s : string) : string :=
  if String.prefix p s then r ++ drop (String.length p) s
  else match s with
       | EmptyString => EmptyString
       | String c s' => String c (replace p r s')
       end.

(** White space as [String.prototype.trim] sees it, among the code units
    below U+0100: TAB, LF, VT, FF, CR, SPACE and NBSP. *)
Definition is_space (c : ascii) : bool :=
  let n := nat_of_ascii c in
  ((9 <=? n)%nat && (n <=? 13)%nat) || (n =? 32)%nat || (n =? 160)%nat.

Fixpoint trimStart (s : string) : string :=
  match s with
  | EmptyString => EmptyString
  | String c s' => if is_space c then trimStart s' else s
  end.

Fixpoint trimEnd (s : string) : string :=
  match s with
  | EmptyString => EmptyString
  | String c s' =>
      match trimEnd s' with
      | EmptyString => if is_space c then EmptyString else String c EmptyString
      | t => String c t
      end
  end.

Definition trim (s : string) : string := trimEnd (trimStart s).

Fixpoint all_chars (p : ascii -> bool) (s : string) : bool :=
  match s with
  | EmptyString => true
  | String c s' => p c && all_chars p s'
  end.

Definition newline : ascii := ascii_of_nat 10.
Definition tab : ascii := ascii_of_nat 9.

(** [s.split('\n')]: never empty, [''.split('\n')] is [['']]. *)
Fixpoint split_lines (s : string) : list string :=
  match s with
  | EmptyString => [EmptyString]
  | String c s' =>
      if Ascii.eqb c newline then EmptyString :: split_lines s'
      else match split_lines s' with
           | h :: t => String c h :: t
           | [] => [String c EmptyString]
           end
  end.

(** [Buffer.from(s, 'utf8')], for code units below U+0100: one byte below
    U+0080, two bytes from there on. *)
Definition byte_of_N (n : N) : byte :=
  match Byte.of_N n with
  | Some b => b
  | None => Byte.x00
  end.

Definition utf8_char (c : ascii) : list byte :=
  let n := N_of_ascii c in
  if (n <? 128)%N then [byte_of_N n]
  else [byte_of_N (192 + n / 64); byte_of_N (128 + n mod 64)].

Fixpoint utf8 (s : string) : list byte :=
  match s with
  | EmptyString => []
  | String c s' => utf8_char c ++ utf8 s'
  end.

(** [buf.toString('hex')]: two lowercase digits per byte, nothing between. *)
Definition hex_digit (n : N) : ascii :=
  if (n <? 10)%N then ascii_of_N (48 + n) else ascii_of_N (87 + n).

Fixpoint hex (d : list byte) : string :=
  match d with
  | [] => EmptyString
  | b :: d' =>
      String (hex_digit (Byte.to_N b / 16))
        (String (hex_digit (Byte.to_N b mod 16)) (hex d'))
  end.

(** The comparison [sort] makes when it is given no comparison function:
    strings by their code units. *)
Definition default_compare (a b : string) : Z :=
  match String.compare a b with
  | Lt => (-1)%Z
  | Eq => 0%Z
  | Gt => 1%Z
  end.

(** *** [Array.prototype.sort]

    The engine owns the algorithm; the program only supplies the comparison
    function.  An engine is therefore an interface.  Two insertion
    strategies are its instances here; they differ on the comparison
    function [sortTags] passes. *)
Class SortEngine : Type :=
  array_sort : forall {A : Type}, (A -> A -> Z) -> list A -> list A.

Section Insertion.
Context {A : Type} (comparefn : A -> A -> Z).

(** The sorted part of the array is kept with its last element first, the
    way the inner loop walks it ([j] going down from [i - 1]). *)

(** [order = comparefn(tmp, element); if (order > 0) shift tmp right]. *)
Fixpoint insert_while_greater (element : A) (sorted_rev : list A) : list A :=
  match sorted_rev with
  | [] => [element]
  | tmp :: rest =>
      if (0 <? comparefn tmp element)%Z
      then tmp :: insert_while_greater element rest
      else element :: tmp :: rest
  end.

(** [order = comparefn(pivot, tmp); if (order < 0) go left of tmp]. *)
Fixpoint insert_while_less (pivot : A) (sorted_rev : list A) : list A :=
  match sorted_rev with
  | [] => [pivot]
  | tmp :: rest =>
      if (comparefn pivot tmp <? 0)%Z
      then tmp :: insert_while_less pivot rest
      else pivot :: tmp :: rest
  end.

Definition insertion_sort (ins : A -> list A -> list A) (l : list A) : list A :=
  rev (fold_left (fun acc x => ins x acc) l []).

End Insertion.

(** Straight insertion, moving an element left while its left neighbour
    compares greater: stable.  (The loop V8 ran on short arrays before its
    version 7.0.) *)
Definition stable_engine : SortEngine :=
  fun A comparefn => insertion_sort (insert_while_greater comparefn).

(** Insertion that moves an element left while it compares less than its
    left neighbour, the question binary insertion and run detection ask. *)
Definition eager_engine : SortEngine :=
  fun A comparefn => insertion_sort (insert_while_less comparefn).

(** What every engine is relied on for.  [le a b] reads "a may stand before
    b"; a comparison function is truthful for [le] when each of its three
    answers is a true statement about [le]. *)
Definition truthful {A} (comparefn : A -> A -> Z) (le : A -> A -> Prop)
    (l : list A) : Prop :=
  forall a b, In a l -> In b l ->
    ((0 < comparefn a b)%Z -> le b a) /\
    ((comparefn a b < 0)%Z -> le a b) /\
    (comparefn a b = 0%Z -> le a b /\ le b a).

Definition transitive_on {A} (le : A -> A -> Prop) (l : list A) : Prop :=
  forall a b c, In a l -> In b l -> In c l -> le a b -> le b c -> le a c.

Class SortEngineLaws (E : SortEngine) : Prop := {
  array_sort_perm :
    forall (A : Type) (comparefn : A -> A -> Z) (l : list A),
      Permutation (array_sort comparefn l) l;
  array_sort_sorted :
    forall (A : Type) (comparefn : A -> A -> Z) (le : A -> A -> Prop) (l : list A),
      transitive_on le l -> truthful comparefn le l ->
      StronglySorted le (array_sort comparefn l)
}.

End Js.

(** The values the module throws or rejects with. *)
Inductive js_error : Type :=
| TypeError (message : string)
| Error (message : string)
| ChildProcessError (code : option Z) (stderr : string)
| SystemError (code : string).

(** ** The version-comparison collaborator *)

(** [vendor/semver] is taken as given: the three functions the module calls,
    on the names they accept. *)
Record semver_api : Type := {
  semver_gt : string -> string -> bool;
  semver_lt : string -> string -> bool;
  semver_satisfies : string -> string -> bool
}.

(** ** Version Selector *)

Section VersionSelector.
Context {engine : Js.SortEngine} (semver : semver_api).

(** The truth value of an optional boolean argument: a missing argument is
    [undefined], which is falsy. *)
Definition truthy (flag : option bool) : bool :=
  match flag with
  | Some true => true
  | _ => false
  end.

Definition version_tag (tag : string) : bool := (Js.indexOf "v" tag =? 0)%Z.

Definition cmp (desc : option bool) : string -> string -> bool :=
  if truthy desc then semver_gt semver else semver_lt semver.

(** The comparison function handed to [sort]. *)
Definition comparator (desc : option bool) (a b : string) : Z :=
  if String.eqb a b then 0%Z
  else if cmp desc a b then 1%Z else (-1)%Z.

Definition sortTags (tags : list string) (desc : option bool) : list string :=
  let filtered := List.filter version_tag tags in
  Js.array_sort (comparator desc) filtered.

(** [null] is [None]. *)
Definition matchTag (tags : list string) (needed : string) : option string :=
  let sorted := sortTags tags None in
  List.find (fun tag => semver_satisfies semver (Js.replace "v" "" tag) needed) sorted.

End VersionSelector.

(** ** A model of the version-comparison collaborator *)

(** Modelled from the spec: [vendor/semver] is not among the sources.  This
    is the fragment of semantic versioning the examples need: full versions
    [[v]MAJOR.MINOR.PATCH[-PRERELEASE][+BUILD]], their precedence, and ranges
    that are a space-separated list of primitive comparators, caret ranges
    and tilde ranges over full versions.  Anything else does not parse:
    comparisons then answer [false], and nothing satisfies such a range. *)
Module Semver.

Inductive ident : Type :=
| Numeric (n : N)
| Alnum (s : string).

Record version : Type := mk_version {
  major : N;
  minor : N;
  patch : N;
  prerelease : list ident
}.

Definition is_digit (c : ascii) : bool :=
  let n := nat_of_ascii c in (48 <=? n)%nat && (n <=? 57)%nat.

Definition is_ident_char (c : ascii) : bool :=
  let n := nat_of_ascii c in
  is_digit c || ((65 <=? n)%nat && (n <=? 90)%nat)
  || ((97 <=? n)%nat && (n <=? 122)%nat) || (n =? 45)%nat.

Fixpoint digits_value (s : string) (acc : N) : N :=
  match s with
  | EmptyString => acc
  | String c s' => digits_value s' (acc * 10 + (N_of_ascii c - 48))%N
  end.

(** A numeric identifier: digits, without a leading zero unless it is [0]. *)
Definition parse_numeric (s : string) : option N :=
  match s with
  | EmptyString => None
  | String c s' =>
      if Js.all_chars is_digit s
         && negb (Ascii.eqb c "0" && negb (String.eqb s' EmptyString))
      then Some (digits_value s 0%N)
      else None
  end.

(** All the pieces between occurrences of [sep]. *)
Fixpoint split_on (sep : ascii) (s : string) : list string :=
  match s with
  | EmptyString => [EmptyString]
  | String c s' =>
      if Ascii.eqb c sep then EmptyString :: split_on sep s'
      else match split_on sep s' with
           | h :: t => String c h :: t
           | [] => [String c EmptyString]
           end
  end.

(** The part before the first [sep], and the part after it if there is one. *)
Fixpoint cut (sep : ascii) (s : string) : string * option string :=
  match s with
  | EmptyString => (EmptyString, None)
  | String c s' =>
      if Ascii.eqb c sep then (EmptyString, Some s')
      else let (a, b) := cut sep s' in (String c a, b)
  end.

Definition parse_ident (s : string) : option ident :=
  if String.eqb s EmptyString then None
  else if Js.all_chars is_digit s then option_map Numeric (parse_numeric s)
  else if Js.all_chars is_ident_char s then Some (Alnum s)
  else None.

Fixpoint parse_idents (l : list string) : option (list ident) :=
  match l with
  | [] => Some []
  | s :: l' =>
      match parse_ident s, parse_idents l' with
      | Some i, Some is' => Some (i :: is')
      | _, _ => None
      end
  end.

Definition valid_build (build : option string) : bool :=
  match build with
  | None => true
  | Some b =>
      forallb (fun s => negb (String.eqb s EmptyString) && Js.all_chars is_ident_char s)
              (split_on "." b)
  end.

Definition parse_plain (s : string) : option version :=
  let (rest, build) := cut "+" s in
  let (core, pre) := cut "-" rest in
  if valid_build build then
    match split_on "." core with
    | [a; b; c] =>
        match parse_numeric a, parse_numeric b, parse_numeric c with
        | Some x, Some y, Some z =>
            match pre with
            | None => Some (mk_version x y z [])
            | Some p => option_map (mk_version x y z) (parse_idents (split_on "." p))
            end
        | _, _, _ => None
        end
    | _ => None
    end
  else None.

Definition parse (s : string) : option version :=
  match s with
  | String "v" s' => parse_plain s'
  | _ => parse_plain s
  end.

Definition compare_ident (a b : ident) : comparison :=
  match a, b with
  | Numeric x, Numeric y => N.compare x y
  | Numeric _, Alnum _ => Lt
  | Alnum _, Numeric _ => Gt
  | Alnum x, Alnum y => String.compare x y
  end.

Fixpoint compare_idents (a b : list ident) : comparison :=
  match a, b with
  | [], [] => Eq
  | [], _ :: _ => Lt
  | _ :: _, [] => Gt
  | x :: a', y :: b' =>
      match compare_ident x y with
      | Eq => compare_idents a' b'
      | c => c
      end
  end.

(** A version without pre-release identifiers has the higher precedence. *)
Definition compare_prerelease (a b : list ident) : comparison :=
  match a, b with
  | [], [] => Eq
  | [], _ :: _ => Gt
  | _ :: _, [] => Lt
  | _, _ => compare_idents a b
  end.

Definition then_compare (c d : comparison) : comparison :=
  match c with
  | Eq => d
  | _ => c
  end.

Definition compare (v w : version) : comparison :=
  then_compare (N.compare (major v) (major w))
    (then_compare (N.compare (minor v) (minor w))
       (then_compare (N.compare (patch v) (patch w))
          (compare_prerelease (prerelease v) (prerelease w)))).

Definition is_lt (c : comparison) : bool :=
  match c with Lt => true | _ => false end.
Definition is_gt (c : comparison) : bool :=
  match c with Gt => true | _ => false end.
Definition is_eq (c : comparison) : bool :=
  match c with Eq => true | _ => false end.

Definition lt (a b : string) : bool :=
  match parse a, parse b with
  | Some v, Some w => is_lt (compare v w)
  | _, _ => false
  end.

Definition gt (a b : string) : bool :=
  match parse a, parse b with
  | Some v, Some w => is_gt (compare v w)
  | _, _ => false
  end.

Inductive operator : Type := OpEq | OpLt | OpLe | OpGt | OpGe.

Record comparator : Type := mk_comparator {
  comparator_op : operator;
  comparator_version : version
}.

Definition test (v : version) (c : comparator) : bool :=
  let r := compare v (comparator_version c) in
  match comparator_op c with
  | OpEq => is_eq r
  | OpLt => is_lt r
  | OpLe => negb (is_gt r)
  | OpGt => is_gt r
  | OpGe => negb (is_lt r)
  end.

Definition zero_prerelease : list ident := [Numeric 0%N].

(** [^M.m.p] allows changes that leave the left-most non-zero number alone. *)
Definition caret (v : version) : list comparator :=
  let upper :=
    if (0 <? major v)%N then mk_version (major v + 1) 0 0 zero_prerelease
    else if (0 <? minor v)%N then mk_version 0 (minor v + 1) 0 zero_prerelease
    else mk_version 0 0 (patch v + 1) zero_prerelease in
  [mk_comparator OpGe v; mk_comparator OpLt upper].

(** [~M.m.p] allows patch-level changes. *)
Definition tilde (v : version) : list comparator :=
  [mk_comparator OpGe v;
   mk_comparator OpLt (mk_version (major v) (minor v + 1) 0 zero_prerelease)].

Definition parse_comparator (s : string) : option (list comparator) :=
  match s with
  | String "^" s' => option_map caret (parse s')
  | String "~" s' => option_map tilde (parse s')
  | String ">" (String "=" s') => option_map (fun v => [mk_comparator OpGe v]) (parse s')
  | String "<" (String "=" s') => option_map (fun v => [mk_comparator OpLe v]) (parse s')
  | String ">" s' => option_map (fun v => [mk_comparator OpGt v]) (parse s')
  | String "<" s' => option_map (fun v => [mk_comparator OpLt v]) (parse s')
  | String "=" s' => option_map (fun v => [mk_comparator OpEq v]) (parse s')
  | _ => option_map (fun v => [mk_comparator OpEq v]) (parse s)
  end.

Fixpoint parse_comparators (l : list string) : option (list comparator) :=
  match l with
  | [] => Some []
  | s :: l' =>
      if String.eqb s EmptyString then parse_comparators l'
      else match parse_comparator s, parse_comparators l' with
           | Some cs, Some cs' => Some (cs ++ cs')
           | _, _ => None
           end
  end.

Definition parse_range (r : string) : option (list comparator) :=
  parse_comparators (split_on " " r).

Definition same_tuple (v w : version) : bool :=
  (major v =? major w)%N && (minor v =? minor w)%N && (patch v =? patch w)%N.

(** A version with pre-release identifiers satisfies a comparator set only
    when some comparator of the set names a pre-release of the same
    [MAJOR.MINOR.PATCH]. *)
Definition prerelease_allowed (v : version) (cs : list comparator) : bool :=
  match prerelease v with
  | [] => true
  | _ :: _ =>
      existsb (fun c =>
                 match prerelease (comparator_version c) with
                 | [] => false
                 | _ :: _ => same_tuple v (comparator_version c)
                 end) cs
  end.

Definition satisfies (version_string range : string) : bool :=
  match parse version_string, parse_range range with
  | Some v, Some cs => forallb (test v) cs && prerelease_allowed v cs
  | _, _ => false
  end.

Definition api : semver_api :=
  {| semver_gt := gt; semver_lt := lt; semver_satisfies := satisfies |}.

End Semver.

(** ** Remote Ref Reader *)

Definition is_hex (c : ascii) : bool :=
  let n := nat_of_ascii c in
  ((48 <=? n)%nat && (n <=? 57)%nat) || ((97 <=? n)%nat && (n <=? 102)%nat).

(** The characters [.] does not match, among the code units below U+0100. *)
Definition is_line_terminator (c : ascii) : bool :=
  let n := nat_of_ascii c in (n =? 10)%nat || (n =? 13)%nat.

(** The longest prefix of characters satisfying [p], and the rest. *)
Fixpoint span (p : ascii -> bool) (s : string) : string * string :=
  match s with
  | EmptyString => (EmptyString, EmptyString)
  | String c s' =>
      if p c then let (a, b) := span p s' in (String c a, b)
      else (EmptyString, s)
  end.

(** [item.match] against the pattern for a ref line: one or more lowercase
    hexadecimal digits, a tab, the namespace, then any characters but line
    terminators up to the end.  The result is the two groups, or [None] for
    [null].  A tab is no hexadecimal digit, so the greedy first group is the
    whole run of digits the line starts with. *)
Definition match_ref (namespace item : string) : option (string * string) :=
  match span is_hex item with
  | (EmptyString, _) => None
  | (_, EmptyString) => None
  | (hash, String c rest) =>
      if Ascii.eqb c Js.tab && String.prefix namespace rest then
        let name := Js.drop (String.length namespace) rest in
        if Js.all_chars (fun c => negb (is_line_terminator c)) name
        then Some (hash, name)
        else None
      else None
  end.

(** The own properties of the object stored for a tag. *)
Record TagRecord : Type := mk_tag {
  commit : option string;
  annotated : option string;
  name : option string
}.

Definition empty_record : TagRecord :=
  {| commit := None; annotated := None; name := None |}.

(** [tags] is an ordinary object, so a key it does not own is looked up on
    [Object.prototype]. *)
Inductive slot : Type :=
| SlotRecord (r : TagRecord)
| SlotFunction
| SlotObjectPrototype
| SlotString (s : string)
| SlotUndefined.

Definition object_prototype_functions : list string :=
  ["constructor"; "__defineGetter__"; "__defineSetter__"; "hasOwnProperty";
   "__lookupGetter__"; "__lookupSetter__"; "isPrototypeOf";
   "propertyIsEnumerable"; "toString"; "valueOf"; "toLocaleString"].

(** The own properties of [tags], and the string properties the loop has put
    on [Object.prototype] (none when the call starts). *)
Record heap : Type := mk_heap {
  own : gmap string TagRecord;
  prototype_added : gmap string string
}.

Definition initial_heap : heap := mk_heap ∅ ∅.

(** [tags[key]] *)
Definition get (h : heap) (key : string) : slot :=
  if String.eqb key "__proto__" then SlotObjectPrototype
  else match own h !! key with
       | Some r => SlotRecord r
       | None =>
           if existsb (String.eqb key) object_prototype_functions then SlotFunction
           else match prototype_added h !! key with
                | Some s => SlotString s
                | None => SlotUndefined
                end
       end.

Definition truthy_slot (v : slot) : bool :=
  match v with
  | SlotUndefined => false
  | SlotString s => negb (String.eqb s EmptyString)
  | _ => true
  end.

Definition set_own (h : heap) (key : string) (r : TagRecord) : heap :=
  {| own := <[key := r]> (own h); prototype_added := prototype_added h |}.

Definition with_hash (is_annotated : bool) (hash : string) (r : TagRecord) : TagRecord :=
  if is_annotated
  then {| commit := commit r; annotated := Some hash; name := name r |}
  else {| commit := Some hash; annotated := annotated r; name := name r |}.

Definition with_name (tag : string) (r : TagRecord) : TagRecord :=
  {| commit := commit r; annotated := annotated r; name := Some tag |}.

Definition hash_field (is_annotated : bool) : string :=
  if is_annotated then "annotated" else "commit".

(** One turn of the loop over the lines. *)
Definition store (h : heap) (item : string) : Js.outcome js_error heap :=
  match match_ref "refs/tags/" item with
  | None => Js.Rejected (TypeError "Cannot read property '1' of null")
  | Some (hash, matched) =>
      let is_annotated := Js.includes "^{}" matched in
      let tag := if is_annotated then Js.replace "^{}" "" matched else matched in
      let h1 := if truthy_slot (get h tag) then h else set_own h tag empty_record in
      match get h1 tag with
      | SlotRecord r =>
          Js.Resolved (set_own h1 tag (with_name tag (with_hash is_annotated hash r)))
      | SlotObjectPrototype =>
          Js.Resolved
            {| own := own h1;
               prototype_added :=
                 <["name" := tag]>
                   (<[hash_field is_annotated := hash]> (prototype_added h1)) |}
      | SlotFunction =>
          Js.Rejected (TypeError "Cannot assign to read only property 'name' of function")
      | SlotString _ =>
          Js.Rejected (TypeError "Cannot create property on string")
      | SlotUndefined =>
          Js.Rejected (TypeError "Cannot set property of undefined")
      end
  end.

Fixpoint store_all (items : list string) (h : heap) : Js.outcome js_error heap :=
  match items with
  | [] => Js.Resolved h
  | item :: rest => Js.bind (store h item) (store_all rest)
  end.

Definition parse_tags (stdout : string) : Js.outcome js_error (gmap string TagRecord) :=
  let items := Js.split_lines (Js.trim stdout) in
  Js.bind (store_all items initial_heap) (fun h => Js.Resolved (own h)).

Section RemoteRefReader.
(** [util.promisify(cp.exec)]: the command line to its standard output, or
    to the error the child process ended with. *)
Variable exec : string -> Js.outcome js_error string.

Definition listTags (git : string) : Js.outcome js_error (gmap string TagRecord) :=
  Js.bind (exec ("git ls-remote --tags " ++ git)) parse_tags.

End RemoteRefReader.

(** ** Trust Verifier *)

(** What the child process emits. *)
Inductive child_event : Type :=
| ChildError (err : js_error)
| ChildClose (code : option Z).

(** The promise [verifyRepo] returns, with the two [once] listeners. *)
Record supervision : Type := mk_supervision {
  settled : option (Js.outcome js_error unit);
  error_listener : bool;
  close_listener : bool
}.

Definition supervising : supervision :=
  {| settled := None; error_listener := true; close_listener := true |}.

(** [resolve] and [reject] act on a pending promise only. *)
Definition settle (o : Js.outcome js_error unit) (s : supervision)
  : option (Js.outcome js_error unit) :=
  match settled s with
  | None => Some o
  | Some first => Some first
  end.

Definition on_close (code : option Z) : Js.outcome js_error unit :=
  match code with
  | Some 0%Z => Js.Resolved tt
  | _ => Js.Rejected (Error "Could not verify signature.")
  end.

Definition deliver (s : supervision) (ev : child_event) : supervision :=
  match ev with
  | ChildError err =>
      if error_listener s
      then {| settled := settle (Js.Rejected err) s;
              error_listener := false;
              close_listener := close_listener s |}
      else s
  | ChildClose code =>
      if close_listener s
      then {| settled := settle (on_close code) s;
              error_listener := error_listener s;
              close_listener := false |}
      else s
  end.

(** [!tag] holds of [null], [undefined] and the empty string. *)
Definition verify_args (tag : option string) (commit : string) : list string :=
  match tag with
  | Some t => if String.eqb t EmptyString then ["verify-commit"; commit]
              else ["verify-tag"; t]
  | None => ["verify-commit"; commit]
  end.

Section TrustVerifier.
Context {stdio_mode : Type}.
(** [cp.spawn]: the events of the child, in the order they are emitted. *)
Variable spawn : string -> list string -> string -> stdio_mode -> list child_event.

(** [None] while the promise is pending. *)
Definition verifyRepo (tag : option string) (commit dst : string) (stdio : stdio_mode)
  : option (Js.outcome js_error unit) :=
  let child := spawn "git" (verify_args tag commit) dst stdio in
  settled (fold_left deliver child supervising).

End TrustVerifier.

(** ** Content Digest Engine *)

(** A hash object: the algorithm and the bytes written so far. *)
Record hash_context : Type := mk_hash_context {
  algorithm : list byte -> list byte;
  written : list byte
}.

Definition update (ctx : hash_context) (data : list byte) : hash_context :=
  {| algorithm := algorithm ctx; written := written ctx ++ data |}.

Definition digest (ctx : hash_context) : list byte := algorithm ctx (written ctx).

Section ContentDigest.
Context {engine : Js.SortEngine}.
(** [cp.execFile(file, args, {cwd}, callback)]: the [err] and [stdout] the
    callback is called with. *)
Variable execFile : string -> list string -> string -> option js_error * string.
(** [fs.createReadStream(path)], read to its end or to its error. *)
Variable createReadStream : string -> Js.outcome js_error (list byte).
(** [crypto.createHash(algo)] throws for an algorithm it does not know. *)
Variable createHash : string -> option (list byte -> list byte).
Variable path_join : string -> string -> string.

Definition new_hash (algo : string) : Js.outcome js_error hash_context :=
  match createHash algo with
  | Some f => Js.Resolved {| algorithm := f; written := [] |}
  | None => Js.Rejected (Error "Digest method not supported")
  end.

Definition listTree (dst : string) : Js.outcome js_error (list string) :=
  let '(err, stdout) :=
    execFile "git" ["ls-tree"; "--full-tree"; "-r"; "--name-only"; "HEAD"] dst in
  match err with
  | Some e => Js.Rejected e
  | None => Js.Resolved (Js.array_sort Js.default_compare (Js.split_lines (Js.trim stdout)))
  end.

Definition checksum (file algo : string) : Js.outcome js_error (list byte) :=
  Js.bind (new_hash algo) (fun hash =>
  Js.bind (createReadStream file) (fun content =>
  Js.Resolved (digest (update hash content)))).

(** The [while] loop: [files.shift()] until the array is empty. *)
Fixpoint treeHash_loop (base algo : string) (files : list string) (ctx : hash_context)
  : Js.outcome js_error hash_context :=
  match files with
  | [] => Js.Resolved ctx
  | filename :: rest =>
      let filepath := path_join base filename in
      Js.bind (checksum filepath algo) (fun d =>
      let ctx1 := update ctx (Js.utf8 (Js.hex d)) in
      let ctx2 := update ctx1 (Js.utf8 ("  " ++ filename ++ String Js.newline EmptyString)) in
      treeHash_loop base algo rest ctx2)
  end.

Definition treeHash (dst base algo : string) : Js.outcome js_error (list byte) :=
  Js.bind (listTree dst) (fun files =>
  Js.bind (new_hash algo) (fun ctx =>
  Js.bind (treeHash_loop base algo files ctx) (fun ctx' =>
  Js.Resolved (digest ctx')))).

End ContentDigest.

(** ** A digest algorithm *)

(** The MD5 message digest (RFC 1321), which [crypto.createHash('md5')]
    computes: words are 32-bit integers in [Z], additions wrap around. *)
Module Md5.

#[local] Open Scope Z_scope.

Definition word (x : Z) : Z := x mod 4294967296.

Definition rotl (x n : Z) : Z :=
  Z.lor (word (Z.shiftl x n)) (Z.shiftr x (32 - n)).

Definition not32 (x : Z) : Z := Z.lxor x 4294967295.

(** [floor (2^32 * abs (sin (i + 1)))] for [i] from 0 to 63. *)
Definition K : list Z :=
  [
   3614090360; 3905402710; 606105819; 3250441966;
   4118548399; 1200080426; 2821735955; 4249261313;
   1770035416; 2336552879; 4294925233; 2304563134;
   1804603682; 4254626195; 2792965006; 1236535329;
   4129170786; 3225465664; 643717713; 3921069994;
   3593408605; 38016083; 3634488961; 3889429448;
   568446438; 3275163606; 4107603335; 1163531501;
   2850285829; 4243563512; 1735328473; 2368359562;
   4294588738; 2272392833; 1839030562; 4259657740;
   2763975236; 1272893353; 4139469664; 3200236656;
   681279174; 3936430074; 3572445317; 76029189;
   3654602809; 3873151461; 530742520; 3299628645;
   4096336452; 1126891415; 2878612391; 4237533241;
   1700485571; 2399980690; 4293915773; 2240044497;
   1873313359; 4264355552; 2734768916; 1309151649;
   4149444226; 3174756917; 718787259; 3951481745
  ].

Definition shifts : list Z :=
  [7; 12; 17; 22; 7; 12; 17; 22; 7; 12; 17; 22; 7; 12; 17; 22;
   5; 9; 14; 20; 5; 9; 14; 20; 5; 9; 14; 20; 5; 9; 14; 20;
   4; 11; 16; 23; 4; 11; 16; 23; 4; 11; 16; 23; 4; 11; 16; 23;
   6; 10; 15; 21; 6; 10; 15; 21; 6; 10; 15; 21; 6; 10; 15; 21].

Record state : Type := mk_state { sa : Z; sb : Z; sc : Z; sd : Z }.

Definition initial : state :=
  mk_state 1732584193 4023233417 2562383102 271733878.

Definition mix (i : nat) (b c d : Z) : Z * nat :=
  if (i <? 16)%nat then (Z.lor (Z.land b c) (Z.land (not32 b) d), i)
  else if (i <? 32)%nat then
    (Z.lor (Z.land d b) (Z.land (not32 d) c), ((5 * i + 1) mod 16)%nat)
  else if (i <? 48)%nat then
    (Z.lxor (Z.lxor b c) d, ((3 * i + 5) mod 16)%nat)
  else (Z.lxor c (Z.lor b (not32 d)), ((7 * i) mod 16)%nat).

Definition step (block : list Z) (st : state) (i : nat) : state :=
  let '(f, g) := mix i (sb st) (sc st) (sd st) in
  let sum := word (f + sa st + nth i K 0 + nth g block 0) in
  mk_state (sd st) (word (sb st + rotl sum (nth i shifts 0))) (sb st) (sc st).

Definition compress (st : state) (block : list Z) : state :=
  let r := fold_left (step block) (seq 0 64) st in
  mk_state (word (sa st + sa r)) (word (sb st + sb r))
           (word (sc st + sc r)) (word (sd st + sd r)).

(** Little-endian bytes of a word, and back. *)
Definition bytes_of_word (n : nat) (w : Z) : list Z :=
  map (fun k => Z.land (Z.shiftr w (8 * Z.of_nat k)) 255) (seq 0 n).

Fixpoint words_of_bytes (fuel : nat) (l : list Z) : list Z :=
  match fuel, l with
  | S fuel', b0 :: b1 :: b2 :: b3 :: rest =>
      (b0 + 256 * b1 + 65536 * b2 + 16777216 * b3) :: words_of_bytes fuel' rest
  | _, _ => []
  end.

Definition pad (message : list Z) : list Z :=
  let len := Z.of_nat (List.length message) in
  message ++ [128] ++ repeat 0 (Z.to_nat ((55 - len) mod 64))
          ++ bytes_of_word 8 (8 * len).

Fixpoint compress_all (fuel : nat) (st : state) (words : list Z) : state :=
  match fuel, words with
  | S fuel', _ :: _ => compress_all fuel' (compress st (firstn 16 words)) (skipn 16 words)
  | _, _ => st
  end.

Definition digest_Z (message : list Z) : list Z :=
  let padded := pad message in
  let words := words_of_bytes (List.length padded) padded in
  let r := compress_all (List.length words) initial words in
  bytes_of_word 4 (sa r) ++ bytes_of_word 4 (sb r)
    ++ bytes_of_word 4 (sc r) ++ bytes_of_word 4 (sd r).

Definition md5 (message : list byte) : list byte :=
  map (fun z => Js.byte_of_N (Z.to_N z))
      (digest_Z (map (fun b => Z.of_N (Byte.to_N b)) message)).

End Md5.

(** ** Vocabulary of the statements *)

(** *** Sorting *)

(** The part already sorted, read from its last element, is sorted for the
    converse relation. *)
Definition sorted_rev {A : Type} (le : A -> A -> Prop) (acc : list A) : Prop :=
  StronglySorted (fun a b => le b a) acc.

(** The order of strings by their code units. *)
Definition string_le (a b : string) : Prop := String.compare a b <> Gt.

(** *** Version Selector *)

(** A comparison in the manner of [semver.lt] and [semver.gt] orders the
    names it is used on strictly and weakly: it is asymmetric, and names it
    does not separate are not separated through a third one. *)
Definition strict_weak_on (R : string -> string -> bool) (l : list string) : Prop :=
  (forall a b, In a l -> In b l -> R a b = true -> R b a = false) /\
  (forall a b c, In a l -> In b l -> In c l ->
                 R a b = false -> R b c = false -> R a c = false).

(** The same, as a test on a given list. *)
Definition strict_weak_onb (R : string -> string -> bool) (l : list string) : bool :=
  forallb (fun a => forallb (fun b => implb (R a b) (negb (R b a))) l) l
  && forallb (fun a => forallb (fun b => forallb (fun c =>
       implb (negb (R a b) && negb (R b c)) (negb (R a c))) l) l) l.

(** The tags of the example of [matchTag]. *)
Definition example_tags : list string := ["v1.0.0"; "v1.2.0"; "v2.0.0-rc"].

(** Version tags among other names, two of them of equal precedence. *)
Definition mixed_tags : list string :=
  ["v1.0.0"; "release"; "v1.2.0"; "v2.0.0-rc"; "1.5.0"; "v1.0.0+build"].

(** Two version tags with a name between them that begins with [v] and is
    no version. *)
Definition unversioned_tags : list string := ["v1.0.0"; "vnext"; "v2.0.0"].

(** *** Remote Ref Reader *)

Definition line_feed : string := String Js.newline EmptyString.

(** A line of [git ls-remote]: the hash, a tab, the full ref name. *)
Definition ref_line (hash tag : string) : string :=
  (hash ++ String Js.tab ("refs/tags/" ++ tag))%string.



(** The logical tag a matched ref name stands for. *)
Definition logical_tag (matched : string) : string :=
  if Js.includes "^{}" matched then Js.replace "^{}" "" matched else matched.

(** The logical tag a line of the listing is about, if it is a ref line. *)
Definition item_tag (item : string) : option string :=
  match match_ref "refs/tags/" item with
  | Some (_, matched) => Some (logical_tag matched)
  | None => None
  end.


(** A listing whose second line is no ref line. *)
Definition malformed_listing : string :=
  (ref_line "5d41402abc4b2a76b9719d911017c592aa11bb22" "v1.0.0" ++ line_feed
   ++ "warning: redirecting to another remote" ++ line_feed)%string.

(** A listing whose one ref line is preceded by a space. *)
Definition indented_listing : string :=
  (" " ++ ref_line "5d41402abc4b2a76b9719d911017c592aa11bb22" "v1.0.0" ++ line_feed)%string.



(** *** Trust Verifier *)

(** The one error of the close handler. *)
Definition could_not_verify : js_error := Error "Could not verify signature.".

Definition spawn_failure : js_error := SystemError "ENOENT".

(** A child that could not be spawned: the error event, then the close
    event with the negative status of the failure. *)
Definition failed_spawn (file : string) (args : list string) (cwd : string) (stdio : unit)
  : list child_event :=
  [ChildError spawn_failure; ChildClose (Some (-2)%Z)].

(** *** Content Digest Engine *)

(** The call [listTree] makes. *)
Definition ls_tree (execFile : string -> list string -> string -> option js_error * string)
    (dst : string) : option js_error * string :=
  execFile "git" ["ls-tree"; "--full-tree"; "-r"; "--name-only"; "HEAD"] dst.

(** The content of a file of the checkout (empty when it cannot be read). *)
Definition content_of (createReadStream : string -> Js.outcome js_error (list byte))
    (path_join : string -> string -> string) (base file : string) : list byte :=
  match createReadStream (path_join base file) with
  | Js.Resolved content => content
  | Js.Rejected _ => []
  end.

(** One line of the manifest: the digest in hexadecimal, two spaces, the
    path, a newline. *)
Definition manifest_line (d : list byte) (path : string) : string :=
  (Js.hex d ++ "  " ++ path ++ line_feed)%string.

(** The bytes fed to the hash context for a list of files. *)
Definition manifest (H : list byte -> list byte) (content : string -> list byte)
    (files : list string) : list byte :=
  flat_map (fun file => Js.utf8 (manifest_line (H (content file)) file)) files.

(** The manifest as text, for entries of a digest and a path. *)
Fixpoint manifest_text (entries : list (list byte * string)) : string :=
  match entries with
  | [] => EmptyString
  | (d, path) :: rest => (manifest_line d path ++ manifest_text rest)%string
  end.

(** The line of the manifest as the specification words it, byte for
    byte: for every byte of the digest its two digits of lowercase
    hexadecimal, high half first and nothing between; two spaces; the path
    in UTF-8; one newline. *)
Definition hex_digits : string := "0123456789abcdef".

Definition digit_byte (n : N) : byte :=
  nth (N.to_nat n) (list_byte_of_string hex_digits) Byte.x00.

Definition hex_bytes (d : list byte) : list byte :=
  flat_map (fun b => [digit_byte (N.shiftr (Byte.to_N b) 4);
                      digit_byte (N.land (Byte.to_N b) 15)]) d.

(** UTF-8 of a code unit below U+0100: the unit itself below U+0080, and
    from there on the two bytes [110000xx] and [10xxxxxx]. *)
Definition utf8_unit (c : ascii) : list byte :=
  let n := N_of_ascii c in
  if N.testbit n 7
  then [byte_of_ascii (ascii_of_N (N.lor 192 (N.shiftr n 6)));
        byte_of_ascii (ascii_of_N (N.lor 128 (N.land n 63)))]
  else [byte_of_ascii c].

Definition utf8_bytes (s : string) : list byte :=
  flat_map utf8_unit (list_ascii_of_string s).

Definition manifest_line_bytes (d : list byte) (path : string) : list byte :=
  hex_bytes d ++ [Byte.x20; Byte.x20] ++ utf8_bytes path ++ [Byte.x0a].

(** What [git ls-tree --name-only] prints: every path followed by a
    newline. *)
Fixpoint unlines (paths : list string) : string :=
  match paths with
  | [] => EmptyString
  | p :: rest => (p ++ line_feed ++ unlines rest)%string
  end.

(** The paths with a newline between them. *)
Fixpoint join_lines (paths : list string) : string :=
  match paths with
  | [] => EmptyString
  | [p] => p
  | p :: rest => (p ++ line_feed ++ join_lines rest)%string
  end.

Definition head_ok (p : string) : bool :=
  match p with
  | String c _ => negb (Js.is_space c)
  | EmptyString => false
  end.

Fixpoint last_ok (p : string) : bool :=
  match p with
  | EmptyString => false
  | String c EmptyString => negb (Js.is_space c)
  | String _ p' => last_ok p'
  end.

Definition no_newline (p : string) : bool :=
  Js.all_chars (fun c => negb (Ascii.eqb c Js.newline)) p.

(** A path that is not empty, neither begins nor ends with white space, and
    has no newline in it. *)
Definition plain_path (p : string) : bool := head_ok p && last_ok p && no_newline p.

(** Reading hexadecimal and UTF-8 back. *)
Definition hex_value (c : ascii) : N :=
  let n := N_of_ascii c in if (n <? 58)%N then (n - 48)%N else (n - 87)%N.

Fixpoint unhex (s : string) : list byte :=
  match s with
  | String a (String b rest) =>
      Js.byte_of_N (16 * hex_value a + hex_value b) :: unhex rest
  | _ => []
  end.

Fixpoint utf8_decode (l : list byte) : string :=
  match l with
  | [] => EmptyString
  | b :: rest =>
      let n := Byte.to_N b in
      if (n <? 128)%N then String (ascii_of_N n) (utf8_decode rest)
      else match rest with
           | [] => EmptyString
           | b2 :: rest' =>
               String (ascii_of_N ((n - 192) * 64 + (Byte.to_N b2 - 128)))
                      (utf8_decode rest')
           end
  end.

(** *** Concrete checkouts *)

(** [path.join] on a normalized base and a normalized relative path; an
    empty second argument leaves the base. *)
Definition join_simple (base filename : string) : string :=
  if String.eqb filename EmptyString then base
  else (base ++ "/" ++ filename)%string.

(** A [crypto] that knows the one algorithm modelled here. *)
Definition md5_only (algo : string) : option (list byte -> list byte) :=
  if String.eqb algo "md5" then Some Md5.md5 else None.

(** An enumeration that succeeds with the given standard output. *)
Definition listing (stdout : string) (file : string) (args : list string) (cwd : string)
  : option js_error * string := (None, stdout).

(** A disk holding the given files and nothing else. *)
Fixpoint disk (files : list (string * list byte)) (path : string)
  : Js.outcome js_error (list byte) :=
  match files with
  | [] => Js.Rejected (SystemError "ENOENT")
  | (p, content) :: rest =>
      if String.eqb p path then Js.Resolved content else disk rest path
  end.

Definition bytes_of (l : list N) : list byte := map Js.byte_of_N l.

(** Two 128-byte messages with the same MD5 digest (Wang and Yu, 2004). *)
Definition collision_a : list byte := bytes_of
  [
   209; 49; 221; 2; 197; 230; 238; 196; 105; 61; 154; 6; 152; 175; 249; 92;
   47; 202; 181; 135; 18; 70; 126; 171; 64; 4; 88; 62; 184; 251; 127; 137;
   85; 173; 52; 6; 9; 244; 179; 2; 131; 228; 136; 131; 37; 113; 65; 90;
   8; 81; 37; 232; 247; 205; 201; 159; 217; 29; 189; 242; 128; 55; 60; 91;
   216; 130; 62; 49; 86; 52; 143; 91; 174; 109; 172; 212; 54; 201; 25; 198;
   221; 83; 226; 180; 135; 218; 3; 253; 2; 57; 99; 6; 210; 72; 205; 160;
   233; 159; 51; 66; 15; 87; 126; 232; 206; 84; 182; 112; 128; 168; 13; 30;
   198; 152; 33; 188; 182; 168; 131; 147; 150; 249; 101; 43; 111; 247; 42; 112
  ]%N.

Definition collision_b : list byte := bytes_of
  [
   209; 49; 221; 2; 197; 230; 238; 196; 105; 61; 154; 6; 152; 175; 249; 92;
   47; 202; 181; 7; 18; 70; 126; 171; 64; 4; 88; 62; 184; 251; 127; 137;
   85; 173; 52; 6; 9; 244; 179; 2; 131; 228; 136; 131; 37; 241; 65; 90;
   8; 81; 37; 232; 247; 205; 201; 159; 217; 29; 189; 114; 128; 55; 60; 91;
   216; 130; 62; 49; 86; 52; 143; 91; 174; 109; 172; 212; 54; 201; 25; 198;
   221; 83; 226; 52; 135; 218; 3; 253; 2; 57; 99; 6; 210; 72; 205; 160;
   233; 159; 51; 66; 15; 87; 126; 232; 206; 84; 182; 112; 128; 40; 13; 30;
   198; 152; 33; 188; 182; 168; 131; 147; 150; 249; 101; 171; 111; 247; 42; 112
  ]%N.

(** A checkout of two files, [a] holding [alpha] and [b] holding [beta];
    its manifest, [md5sum a b], and the MD5 digest of the manifest. *)
Definition small_checkout : string -> Js.outcome js_error (list byte) :=
  disk [("/repo/a", list_byte_of_string "alpha");
        ("/repo/b", list_byte_of_string "beta")].

Definition small_contents (file : string) : list byte :=
  if String.eqb file "a" then list_byte_of_string "alpha"
  else list_byte_of_string "beta".

Definition small_manifest : list byte :=
  list_byte_of_string "2c1743a391305fbf367df8e4f069f9f9  a" ++ [Byte.x0a]
  ++ list_byte_of_string "987bcab01b929eb2c07877b224215c92  b" ++ [Byte.x0a].

Definition small_tree_hash : list byte := bytes_of
  [0xfd; 0xc6; 0x3a; 0xb6; 0xcf; 0x52; 0x92; 0x1c;
   0xf1; 0x33; 0x20; 0x69; 0x0f; 0x20; 0x41; 0xe0]%N.

(** The same two files, their contents written as text. *)
Definition two_files : string -> Js.outcome js_error (list byte) :=
  disk [("/repo/a", Js.utf8 "alpha"); ("/repo/b", Js.utf8 "beta")].

Definition two_contents (file : string) : list byte :=
  if String.eqb file "a" then Js.utf8 "alpha" else Js.utf8 "beta".

(** ** The other exported functions *)

(** *** [listBranches] *)

(** One turn of the loop of [listBranches].  [branches[branch] = hash]
    creates or overwrites an own property, except for the key [__proto__]:
    that one is the accessor of [Object.prototype], whose setter ignores a
    value that is neither an object nor [null]. *)
Definition store_branch (branches : gmap string string) (item : string)
  : Js.outcome js_error (gmap string string) :=
  match match_ref "refs/heads/" item with
  | None => Js.Rejected (TypeError "Cannot read property '1' of null")
  | Some (hash, branch) =>
      if String.eqb branch "__proto__" then Js.Resolved branches
      else Js.Resolved (<[branch := hash]> branches)
  end.

Fixpoint store_branches (items : list string) (branches : gmap string string)
  : Js.outcome js_error (gmap string string) :=
  match items with
  | [] => Js.Resolved branches
  | item :: rest => Js.bind (store_branch branches item) (store_branches rest)
  end.

Definition parse_branches (stdout : string) : Js.outcome js_error (gmap string string) :=
  store_branches (Js.split_lines (Js.trim stdout)) ∅.

Section BranchReader.
Variable exec : string -> Js.outcome js_error string.

Definition listBranches (git : string) : Js.outcome js_error (gmap string string) :=
  Js.bind (exec ("git ls-remote --heads " ++ git)) parse_branches.

End BranchReader.

(** *** [cloneRepo], [cloneFiles] and [getHeadCommit] *)

Section Fetcher.
Context {exec_result : Type}.
(** [util.promisify(cp.exec)], with what it resolves to left as it is. *)
Variable exec : string -> Js.outcome js_error exec_result.

Definition cloneRepo (tag git dst : string) : Js.outcome js_error exec_result :=
  exec ("git clone --depth 1 --branch " ++ tag ++ " " ++ git ++ " " ++ dst).

(** The result of [exec] is awaited and dropped. *)
Definition cloneFiles (git dst : string) : Js.outcome js_error unit :=
  Js.bind (exec ("git clone --depth=1 " ++ git ++ " " ++ dst)) (fun _ => Js.Resolved tt).

End Fetcher.

Section HeadCommit.
(** [exec(cmd, {cwd})]: the command line and the working directory to the
    standard output. *)
Variable exec_in : string -> string -> Js.outcome js_error string.

Definition getHeadCommit (git : string) : Js.outcome js_error string :=
  Js.bind (exec_in "git rev-parse HEAD" git) (fun stdout => Js.Resolved (Js.trim stdout)).

End HeadCommit.

(** *** Vocabulary of the further statements *)








(** White space only. *)
Definition blank (s : string) : bool := Js.all_chars Js.is_space s.

(** No two distinct names of the list have the same precedence. *)
Definition separates (R : string -> string -> bool) (l : list string) : Prop :=
  forall a b, In a l -> In b l -> R a b = false -> R b a = false -> a = b.

Definition separatesb (R : string -> string -> bool) (l : list string) : bool :=
  forallb (fun a => forallb (fun b =>
    implb (negb (R a b) && negb (R b a)) (String.eqb a b)) l) l.

(** [semver.gt] is the converse of [semver.lt] on the names of the list. *)
Definition conversesb (gt lt : string -> string -> bool) (l : list string) : bool :=
  forallb (fun a => forallb (fun b => Bool.eqb (gt a b) (lt b a)) l) l.

(** *** Further vocabulary and concrete listings *)

(** The own properties never shadow a property of [Object.prototype]. *)
Definition unshadowed (m : gmap string TagRecord) : Prop :=
  m !! "__proto__" = None /\
  forall key, In key object_prototype_functions -> m !! key = None.

(** A listing with a tag named like a function of [Object.prototype]. *)
Definition constructor_listing : string :=
  (ref_line "5d41402abc4b2a76b9719d911017c592aa11bb22" "v1.0.0" ++ line_feed
   ++ ref_line "7c211433f02071597741e6ff5a8ea34789abbf43" "constructor" ++ line_feed)%string.

(** A listing whose one tag is named [__proto__]. *)
Definition proto_listing : string :=
  (ref_line "5d41402abc4b2a76b9719d911017c592aa11bb22" "__proto__" ++ line_feed)%string.







(** The tags of the example in another order. *)
Definition shuffled_tags : list string := ["v2.0.0-rc"; "v1.0.0"; "v1.2.0"].

(** * Properties *)

(** ** The sort engines *)

Section InsertionFacts.
Context {A : Type} (comparefn : A -> A -> Z).

Lemma insert_while_greater_perm (x : A) (acc : list A) :
  Permutation (Js.insert_while_greater comparefn x acc) (x :: acc).
Proof.
  induction acc as [|tmp rest IH]; simpl; [reflexivity|].
  destruct (0 <? comparefn tmp x)%Z; [|reflexivity].
  rewrite IH. apply perm_swap.
Qed.

Lemma insert_while_less_perm (x : A) (acc : list A) :
  Permutation (Js.insert_while_less comparefn x acc) (x :: acc).
Proof.
  induction acc as [|tmp rest IH]; simpl; [reflexivity|].
  destruct (comparefn x tmp <? 0)%Z; [|reflexivity].
  rewrite IH. apply perm_swap.
Qed.

Lemma insertion_fold_perm (ins : A -> list A -> list A) :
  (forall x acc, Permutation (ins x acc) (x :: acc)) ->
  forall l acc, Permutation (fold_left (fun acc x => ins x acc) l acc) (l ++ acc).
Proof.
  intros Hins l. induction l as [|x l IH]; intros acc; simpl; [reflexivity|].
  rewrite IH, Hins. symmetry. apply Permutation_middle.
Qed.

Lemma insertion_sort_perm (ins : A -> list A -> list A) :
  (forall x acc, Permutation (ins x acc) (x :: acc)) ->
  forall l, Permutation (Js.insertion_sort ins l) l.
Proof.
  intros Hins l. unfold Js.insertion_sort.
  rewrite <- Permutation_rev, (insertion_fold_perm ins Hins), app_nil_r.
  reflexivity.
Qed.

Lemma sorted_rev_rev (le : A -> A -> Prop) (acc : list A) :
  sorted_rev le acc -> StronglySorted le (rev acc).
Proof.
  unfold sorted_rev. induction 1 as [|x l Hl IH Hx]; simpl; [constructor|].
  apply StronglySorted_app_2; [|exact IH|repeat constructor].
  intros a b Ha Hb. apply list_elem_of_In in Ha. apply in_rev in Ha.
  apply list_elem_of_In in Hb. destruct Hb as [<-|[]].
  rewrite List.Forall_forall in Hx. apply Hx. exact Ha.
Qed.

Section Sortedness.
Context (le : A -> A -> Prop) (dom : list A).
Hypothesis le_trans : Js.transitive_on le dom.
Hypothesis cmp_truthful : Js.truthful comparefn le dom.

Lemma insert_while_greater_sorted (x : A) (acc : list A) :
  In x dom -> (forall y, In y acc -> In y dom) ->
  sorted_rev le acc -> sorted_rev le (Js.insert_while_greater comparefn x acc).
Proof.
  intros Hx. unfold sorted_rev.
  induction acc as [|tmp rest IH]; intros Hdom Hs; simpl.
  - repeat constructor.
  - apply StronglySorted_inv in Hs. destruct Hs as [Hrest Htmp].
    assert (Htd : In tmp dom) by (apply Hdom; left; reflexivity).
    destruct (cmp_truthful tmp x Htd Hx) as (Hgt & Hlt & Heq).
    destruct (0 <? comparefn tmp x)%Z eqn:E.
    + apply Z.ltb_lt in E. constructor.
      * apply IH; [intros y Hy; apply Hdom; right; exact Hy|exact Hrest].
      * rewrite List.Forall_forall. intros y Hy.
        apply (Permutation_in _ (insert_while_greater_perm x rest)) in Hy.
        destruct Hy as [<-|Hy]; [apply Hgt; exact E|].
        rewrite List.Forall_forall in Htmp. apply Htmp. exact Hy.
    + apply Z.ltb_ge in E.
      assert (Hle : le tmp x).
      { destruct (Z.eq_dec (comparefn tmp x) 0%Z) as [H0|H0].
        - apply Heq. exact H0.
        - apply Hlt. lia. }
      constructor; [constructor; assumption|].
      constructor; [exact Hle|].
      rewrite List.Forall_forall in Htmp |- *. intros y Hy.
      apply (le_trans y tmp x); auto.
      apply Hdom. right. exact Hy.
Qed.

Lemma insert_while_less_sorted (x : A) (acc : list A) :
  In x dom -> (forall y, In y acc -> In y dom) ->
  sorted_rev le acc -> sorted_rev le (Js.insert_while_less comparefn x acc).
Proof.
  intros Hx. unfold sorted_rev.
  induction acc as [|tmp rest IH]; intros Hdom Hs; simpl.
  - repeat constructor.
  - apply StronglySorted_inv in Hs. destruct Hs as [Hrest Htmp].
    assert (Htd : In tmp dom) by (apply Hdom; left; reflexivity).
    destruct (cmp_truthful x tmp Hx Htd) as (Hgt & Hlt & Heq).
    destruct (comparefn x tmp <? 0)%Z eqn:E.
    + apply Z.ltb_lt in E. constructor.
      * apply IH; [intros y Hy; apply Hdom; right; exact Hy|exact Hrest].
      * rewrite List.Forall_forall. intros y Hy.
        apply (Permutation_in _ (insert_while_less_perm x rest)) in Hy.
        destruct Hy as [<-|Hy]; [apply Hlt; exact E|].
        rewrite List.Forall_forall in Htmp. apply Htmp. exact Hy.
    + apply Z.ltb_ge in E.
      assert (Hle : le tmp x).
      { destruct (Z.eq_dec (comparefn x tmp) 0%Z) as [H0|H0].
        - apply Heq. exact H0.
        - apply Hgt. lia. }
      constructor; [constructor; assumption|].
      constructor; [exact Hle|].
      rewrite List.Forall_forall in Htmp |- *. intros y Hy.
      apply (le_trans y tmp x); auto.
      apply Hdom. right. exact Hy.
Qed.

Lemma insertion_fold_sorted (ins : A -> list A -> list A) :
  (forall x acc, Permutation (ins x acc) (x :: acc)) ->
  (forall x acc, In x dom -> (forall y, In y acc -> In y dom) ->
                 sorted_rev le acc -> sorted_rev le (ins x acc)) ->
  forall l acc,
    (forall y, In y l -> In y dom) -> (forall y, In y acc -> In y dom) ->
    sorted_rev le acc ->
    sorted_rev le (fold_left (fun acc x => ins x acc) l acc).
Proof.
  intros Hperm Hins l. induction l as [|x l IH]; intros acc Hl Hacc Hs; simpl.
  - exact Hs.
  - apply IH.
    + intros y Hy. apply Hl. right. exact Hy.
    + intros y Hy. apply (Permutation_in _ (Hperm x acc)) in Hy.
      destruct Hy as [<-|Hy]; [apply Hl; left; reflexivity|apply Hacc; exact Hy].
    + apply Hins; [apply Hl; left; reflexivity|exact Hacc|exact Hs].
Qed.

End Sortedness.
End InsertionFacts.

Lemma insertion_sort_sorted {A : Type} (comparefn : A -> A -> Z)
    (ins : A -> list A -> list A) (le : A -> A -> Prop) (l : list A) :
  (forall x acc, Permutation (ins x acc) (x :: acc)) ->
  (forall x acc, In x l -> (forall y, In y acc -> In y l) ->
                 sorted_rev le acc -> sorted_rev le (ins x acc)) ->
  StronglySorted le (Js.insertion_sort ins l).
Proof.
  intros Hperm Hins. unfold Js.insertion_sort. apply sorted_rev_rev.
  apply (insertion_fold_sorted le l ins Hperm Hins); auto.
  - intros y [].
  - constructor.
Qed.

#[export] Instance stable_engine_laws : Js.SortEngineLaws Js.stable_engine.
Proof.
  split.
  - intros A comparefn l. apply insertion_sort_perm, insert_while_greater_perm.
  - intros A comparefn le l Htrans Htruth.
    apply (insertion_sort_sorted comparefn).
    + apply insert_while_greater_perm.
    + intros x acc. apply insert_while_greater_sorted; assumption.
Qed.

#[export] Instance eager_engine_laws : Js.SortEngineLaws Js.eager_engine.
Proof.
  split.
  - intros A comparefn l. apply insertion_sort_perm, insert_while_less_perm.
  - intros A comparefn le l Htrans Htruth.
    apply (insertion_sort_sorted comparefn).
    + apply insert_while_less_perm.
    + intros x acc. apply insert_while_less_sorted; assumption.
Qed.

(** ** Version Selector *)

Lemma strict_weak_onb_sound (R : string -> string -> bool) (l : list string) :
  strict_weak_onb R l = true -> strict_weak_on R l.
Proof.
  unfold strict_weak_onb, strict_weak_on. rewrite andb_true_iff, !forallb_forall.
  intros [H1 H2]. split.
  - intros a b Ha Hb Hab. specialize (H1 a Ha). rewrite forallb_forall in H1.
    specialize (H1 b Hb). rewrite Hab in H1. simpl in H1.
    apply negb_true_iff. exact H1.
  - intros a b c Ha Hb Hc Hab Hbc. specialize (H2 a Ha).
    rewrite forallb_forall in H2. specialize (H2 b Hb).
    rewrite forallb_forall in H2. specialize (H2 c Hc).
    rewrite Hab, Hbc in H2. simpl in H2. apply negb_true_iff. exact H2.
Qed.

Lemma indexOf_unfold (p s : string) :
  Js.indexOf p s =
  if String.prefix p s then 0%Z
  else match s with
       | EmptyString => (-1)%Z
       | String _ s' => let r := Js.indexOf p s' in
                        if (r <? 0)%Z then (-1)%Z else (r + 1)%Z
       end.
Proof. destruct s; reflexivity. Qed.

Lemma indexOf_lower_bound (p s : string) : (-1 <= Js.indexOf p s)%Z.
Proof.
  induction s as [|c s IH]; rewrite indexOf_unfold.
  - destruct (String.prefix p EmptyString); lia.
  - destruct (String.prefix p (String c s)); [lia|]. cbv zeta.
    destruct (Js.indexOf p s <? 0)%Z eqn:E; [lia|].
    apply Z.ltb_ge in E. lia.
Qed.

Lemma prefix_nil (s : string) : String.prefix EmptyString s = true.
Proof. destruct s; reflexivity. Qed.

Lemma prefix_cons (a b : ascii) (p s : string) :
  String.prefix (String a p) (String b s) =
  if ascii_dec a b then String.prefix p s else false.
Proof. reflexivity. Qed.

Lemma prefix_cons_same (a : ascii) (p s : string) :
  String.prefix (String a p) (String a s) = String.prefix p s.
Proof. rewrite prefix_cons. destruct (ascii_dec a a); [reflexivity|contradiction]. Qed.

Lemma prefix_cons_other (a b : ascii) (p s : string) :
  a <> b -> String.prefix (String a p) (String b s) = false.
Proof. intros H. rewrite prefix_cons. destruct (ascii_dec a b); [contradiction|reflexivity]. Qed.

Lemma version_tag_spec (tag : string) :
  version_tag tag = true <-> exists rest, tag = String "v" rest.
Proof.
  unfold version_tag. rewrite indexOf_unfold. destruct tag as [|c s].
  - simpl. split; [intros H; discriminate H|intros [rest H]; discriminate H].
  - destruct (ascii_dec "v" c) as [<-|Hc].
    + rewrite prefix_cons_same, prefix_nil. split; [eauto|reflexivity].
    + rewrite (prefix_cons_other _ _ _ _ Hc).
      cbv zeta. pose proof (indexOf_lower_bound "v" s) as Hlb.
      destruct (Js.indexOf "v" s <? 0)%Z eqn:E.
      * split; [intros H; discriminate H|intros [rest H]; congruence].
      * apply Z.ltb_ge in E. split.
        -- intros H. apply Z.eqb_eq in H. lia.
        -- intros [rest H]. congruence.
Qed.

Lemma replace_unfold (p r s : string) :
  Js.replace p r s =
  if String.prefix p s then (r ++ Js.drop (String.length p) s)%string
  else match s with
       | EmptyString => EmptyString
       | String c s' => String c (Js.replace p r s')
       end.
Proof. destruct s; reflexivity. Qed.

Lemma replace_leading_v (rest : string) : Js.replace "v" "" (String "v" rest) = rest.
Proof. rewrite replace_unfold, prefix_cons_same, prefix_nil. reflexivity. Qed.

Lemma find_first {A : Type} (f : A -> bool) (l : list A) (x : A) :
  find f l = Some x ->
  exists l1 l2, l = l1 ++ x :: l2 /\ f x = true /\ forall y, In y l1 -> f y = false.
Proof.
  induction l as [|a l IH]; simpl; [discriminate|].
  destruct (f a) eqn:E.
  - intros [= <-]. exists [], l. repeat split; [exact E|intros y []].
  - intros H. destruct (IH H) as (l1 & l2 & -> & Hx & Hl1).
    exists (a :: l1), l2. repeat split; [exact Hx|].
    intros y [<-|Hy]; [exact E|apply Hl1; exact Hy].
Qed.

Section VersionSelectorFacts.
Context {engine : Js.SortEngine} {laws : Js.SortEngineLaws engine}.
Context (semver : semver_api).

Lemma comparator_truthful (desc : option bool) (l : list string) :
  strict_weak_on (cmp semver desc) l ->
  Js.truthful (comparator semver desc) (fun a b => cmp semver desc a b = false) l.
Proof.
  intros [Hasym _] a b Ha Hb. unfold comparator.
  destruct (String.eqb a b) eqn:E.
  - apply String.eqb_eq in E. subst b.
    assert (Hirr : cmp semver desc a a = false).
    { destruct (cmp semver desc a a) eqn:Haa; [|reflexivity].
      rewrite (Hasym a a Ha Ha Haa) in Haa. discriminate. }
    split; [|split]; intros H; try lia. split; exact Hirr.
  - destruct (cmp semver desc a b) eqn:Hab.
    + split; [|split]; intros H; try lia. apply Hasym; assumption.
    + split; [|split]; intros H; solve [lia|reflexivity].
Qed.

Lemma sortTags_perm (tags : list string) (desc : option bool) :
  Permutation (sortTags semver tags desc) (List.filter version_tag tags).
Proof. apply Js.array_sort_perm. Qed.

Lemma sortTags_in (tags : list string) (desc : option bool) (tag : string) :
  In tag (sortTags semver tags desc) <->
  In tag tags /\ exists rest, tag = String "v" rest.
Proof.
  rewrite <- version_tag_spec, <- List.filter_In. split; intros H.
  - apply (Permutation_in _ (sortTags_perm tags desc)). exact H.
  - apply (Permutation_in _ (Permutation_sym (sortTags_perm tags desc))). exact H.
Qed.

Lemma sortTags_sorted (tags : list string) (desc : option bool) :
  strict_weak_on (cmp semver desc) (List.filter version_tag tags) ->
  StronglySorted (fun a b => cmp semver desc a b = false)
                 (sortTags semver tags desc).
Proof.
  intros Hswo. apply Js.array_sort_sorted.
  - intros a b c Ha Hb Hc. apply (proj2 Hswo); assumption.
  - apply comparator_truthful. exact Hswo.
Qed.

(** C6: where [semver.lt] and [semver.gt] order the names that begin with
    [v] strictly and weakly, [sortTags] returns exactly those names, the
    others being left out without an error; with the order flag not set
    (missing, or [false]) no name of the result is lower in version
    precedence than a later one (descending order), and with the flag set no
    name is higher than a later one (ascending order). *)
Theorem sortTags_filters_and_orders (tags : list string) :
  strict_weak_on (semver_lt semver) (List.filter version_tag tags) ->
  strict_weak_on (semver_gt semver) (List.filter version_tag tags) ->
  (forall desc : option bool,
      Permutation (sortTags semver tags desc) (List.filter version_tag tags) /\
      (forall tag, In tag (sortTags semver tags desc) <->
                   In tag tags /\ exists rest, tag = String "v" rest)) /\
  StronglySorted (fun a b => semver_lt semver a b = false) (sortTags semver tags None) /\
  StronglySorted (fun a b => semver_lt semver a b = false)
                 (sortTags semver tags (Some false)) /\
  StronglySorted (fun a b => semver_gt semver a b = false)
                 (sortTags semver tags (Some true)).
Proof.
  intros Hlt Hgt. split; [|split; [|split]].
  - intros desc. split; [apply sortTags_perm|apply sortTags_in].
  - apply (sortTags_sorted tags None). exact Hlt.
  - apply (sortTags_sorted tags (Some false)). exact Hlt.
  - apply (sortTags_sorted tags (Some true)). exact Hgt.
Qed.

Lemma matchTag_some (tags : list string) (needed tag : string) :
  strict_weak_on (semver_lt semver) (List.filter version_tag tags) ->
  matchTag semver tags needed = Some tag ->
  In tag tags /\
  (exists version, tag = String "v" version /\
                   semver_satisfies semver version needed = true) /\
  (forall other version,
      In other tags -> other = String "v" version ->
      semver_satisfies semver version needed = true ->
      semver_lt semver tag other = false).
Proof.
  intros Hswo Hfind. unfold matchTag in Hfind.
  destruct (find_first _ _ _ Hfind) as (l1 & l2 & Hsplit & Hsat & Hbefore).
  assert (Hin : In tag (sortTags semver tags None)).
  { rewrite Hsplit. apply in_or_app. right. left. reflexivity. }
  apply sortTags_in in Hin. destruct Hin as [Hin [rest ->]].
  rewrite replace_leading_v in Hsat.
  split; [exact Hin|]. split; [exists rest; split; [reflexivity|exact Hsat]|].
  intros other version Hother -> Hsat'.
  assert (Ho : In (String "v" version) (sortTags semver tags None)).
  { apply sortTags_in. split; [exact Hother|eauto]. }
  pose proof (sortTags_sorted tags None Hswo) as Hsorted. simpl in Hsorted.
  rewrite Hsplit in Ho, Hsorted. apply in_app_or in Ho.
  destruct Ho as [Ho|[Ho|Ho]].
  - apply Hbefore in Ho. rewrite replace_leading_v in Ho. congruence.
  - rewrite <- Ho.
    destruct (semver_lt semver (String "v" rest) (String "v" rest)) eqn:E; [|reflexivity].
    assert (Hf : In (String "v" rest) (List.filter version_tag tags)).
    { apply List.filter_In. split; [exact Hin|]. apply version_tag_spec. eauto. }
    rewrite (proj1 Hswo _ _ Hf Hf E) in E. discriminate.
  - apply StronglySorted_app_1_r in Hsorted. apply StronglySorted_inv in Hsorted.
    destruct Hsorted as [_ Hall]. rewrite List.Forall_forall in Hall.
    apply Hall. exact Ho.
Qed.

Lemma matchTag_none (tags : list string) (needed : string) :
  matchTag semver tags needed = None <->
  forall version, In (String "v" version) tags ->
                  semver_satisfies semver version needed = false.
Proof.
  unfold matchTag. split.
  - intros Hnone version Hin.
    assert (Ho : In (String "v" version) (sortTags semver tags None)).
    { apply sortTags_in. split; [exact Hin|eauto]. }
    pose proof (find_none _ _ Hnone _ Ho) as H. cbv beta in H.
    rewrite replace_leading_v in H. exact H.
  - intros Hall.
    destruct (find _ (sortTags semver tags None)) as [tag|] eqn:E; [|reflexivity].
    apply find_some in E. destruct E as [Hin Hsat].
    apply sortTags_in in Hin. destruct Hin as [Hin [rest ->]].
    rewrite replace_leading_v in Hsat. rewrite (Hall rest Hin) in Hsat.
    discriminate.
Qed.

End VersionSelectorFacts.

(** C1: where [semver.lt] orders the names that begin with [v] strictly and
    weakly, [matchTag] returns a tag of the input that begins with [v], whose
    version (the tag without its leading [v]) satisfies the constraint and
    below which no other satisfying candidate stands in version precedence;
    it returns [null] exactly when no candidate satisfies the constraint.
    For the tags [v1.0.0], [v1.2.0], [v2.0.0-rc] and the constraint [^1.0.0]
    the result is [v1.2.0]. *)
Theorem matchTag_highest_satisfying
    (engine : Js.SortEngine) (laws : Js.SortEngineLaws engine) :
  (forall (semver : semver_api) (tags : list string) (needed : string),
      strict_weak_on (semver_lt semver) (List.filter version_tag tags) ->
      (forall tag,
          matchTag semver tags needed = Some tag ->
          In tag tags /\
          (exists version, tag = String "v" version /\
                           semver_satisfies semver version needed = true) /\
          (forall other version,
              In other tags -> other = String "v" version ->
              semver_satisfies semver version needed = true ->
              semver_lt semver tag other = false)) /\
      (matchTag semver tags needed = None <->
       forall version, In (String "v" version) tags ->
                       semver_satisfies semver version needed = false)) /\
  matchTag Semver.api example_tags "^1.0.0" = Some "v1.2.0".
Proof.
  assert (Hgen : forall (semver : semver_api) (tags : list string) (needed : string),
      strict_weak_on (semver_lt semver) (List.filter version_tag tags) ->
      (forall tag,
          matchTag semver tags needed = Some tag ->
          In tag tags /\
          (exists version, tag = String "v" version /\
                           semver_satisfies semver version needed = true) /\
          (forall other version,
              In other tags -> other = String "v" version ->
              semver_satisfies semver version needed = true ->
              semver_lt semver tag other = false)) /\
      (matchTag semver tags needed = None <->
       forall version, In (String "v" version) tags ->
                       semver_satisfies semver version needed = false)).
  { intros semver tags needed Hswo. split.
    - intros tag. apply matchTag_some. exact Hswo.
    - apply matchTag_none. }
  split; [exact Hgen|].
  assert (Hswo : strict_weak_on (semver_lt Semver.api)
                                (List.filter version_tag example_tags)).
  { apply strict_weak_onb_sound. vm_compute. reflexivity. }
  destruct (Hgen Semver.api example_tags "^1.0.0" Hswo) as [Hsome Hnone].
  destruct (matchTag Semver.api example_tags "^1.0.0") as [tag|] eqn:E.
  - destruct (Hsome tag eq_refl) as (Hin & (version & Htag & Hsat) & Hmax).
    destruct Hin as [<-|[<-|[<-|[]]]].
    + specialize (Hmax "v1.2.0" "1.2.0"). simpl in Hmax.
      assert (Hf : Semver.lt "v1.0.0" "v1.2.0" = false).
      { apply Hmax; [right; left; reflexivity|reflexivity|vm_compute; reflexivity]. }
      vm_compute in Hf. discriminate Hf.
    + reflexivity.
    + injection Htag as <-. vm_compute in Hsat. discriminate Hsat.
  - assert (Hf : semver_satisfies Semver.api "1.2.0" "^1.0.0" = false).
    { apply (proj1 Hnone eq_refl). right. left. reflexivity. }
    vm_compute in Hf. discriminate Hf.
Qed.

Lemma matchTag_highest_satisfying_witness :
  strict_weak_on (semver_lt Semver.api) (List.filter version_tag example_tags) /\
  (forall tag,
      @matchTag Js.stable_engine Semver.api example_tags "^1.0.0" = Some tag ->
      In tag example_tags) /\
  @matchTag Js.stable_engine Semver.api example_tags "^1.0.0" = Some "v1.2.0".
Proof.
  pose proof (matchTag_highest_satisfying Js.stable_engine stable_engine_laws)
    as [Hgen Hex].
  assert (Hswo : strict_weak_on (semver_lt Semver.api)
                                (List.filter version_tag example_tags)).
  { apply strict_weak_onb_sound. vm_compute. reflexivity. }
  split; [exact Hswo|]. split; [|exact Hex].
  intros tag Htag.
  exact (proj1 (proj1 (Hgen Semver.api example_tags "^1.0.0" Hswo) tag Htag)).
Defined.

Lemma sortTags_filters_and_orders_witness :
  Permutation (@sortTags Js.stable_engine Semver.api mixed_tags None)
              ["v1.0.0"; "v1.2.0"; "v2.0.0-rc"; "v1.0.0+build"] /\
  (In "release" (@sortTags Js.stable_engine Semver.api mixed_tags None) <->
   In "release" mixed_tags /\ exists rest, "release" = String "v" rest) /\
  StronglySorted (fun a b => Semver.lt a b = false)
                 (@sortTags Js.stable_engine Semver.api mixed_tags None) /\
  StronglySorted (fun a b => Semver.gt a b = false)
                 (@sortTags Js.stable_engine Semver.api mixed_tags (Some true)) /\
  @sortTags Js.stable_engine Semver.api mixed_tags None
  = ["v2.0.0-rc"; "v1.2.0"; "v1.0.0"; "v1.0.0+build"] /\
  @sortTags Js.stable_engine Semver.api mixed_tags (Some true)
  = ["v1.0.0"; "v1.0.0+build"; "v1.2.0"; "v2.0.0-rc"].
Proof.
  assert (Hlt : strict_weak_on (semver_lt Semver.api)
                               (List.filter version_tag mixed_tags)).
  { apply strict_weak_onb_sound. vm_compute. reflexivity. }
  assert (Hgt : strict_weak_on (semver_gt Semver.api)
                               (List.filter version_tag mixed_tags)).
  { apply strict_weak_onb_sound. vm_compute. reflexivity. }
  destruct (@sortTags_filters_and_orders Js.stable_engine stable_engine_laws
              Semver.api mixed_tags Hlt Hgt) as (Hall & Hdesc & _ & Hasc).
  split; [exact (proj1 (Hall None))|].
  split; [exact (proj2 (Hall None) "release")|].
  split; [exact Hdesc|]. split; [exact Hasc|].
  split; vm_compute; reflexivity.
Defined.

(** C1 and C6 as stated fail on a name that begins with [v] and is no
    version.  [vnext] passes the filter and is compared like the others; the
    comparison does not separate it from any name, so the answers of the
    comparison function no longer describe an order.  Stable insertion then
    leaves [v1.0.0] before [v2.0.0]: the result of [sortTags] is not in
    descending order of precedence. *)
Lemma sortTags_out_of_order :
  version_tag "vnext" = true /\
  Semver.parse "vnext" = None /\
  semver_lt Semver.api "v1.0.0" "v2.0.0" = true /\
  ~ StronglySorted (fun a b => semver_lt Semver.api a b = false)
      (@sortTags Js.stable_engine Semver.api unversioned_tags None).
Proof.
  split; [reflexivity|]. split; [reflexivity|]. split; [vm_compute; reflexivity|].
  intros Hsorted.
  change (@sortTags Js.stable_engine Semver.api unversioned_tags None)
    with ["v1.0.0"; "vnext"; "v2.0.0"] in Hsorted.
  apply StronglySorted_inv in Hsorted. destruct Hsorted as [_ Hall].
  rewrite List.Forall_forall in Hall.
  specialize (Hall "v2.0.0" (or_intror (or_introl eq_refl))).
  vm_compute in Hall. discriminate Hall.
Qed.

(** And [matchTag], which takes the first name of that result that satisfies
    the constraint, does not return [v2.0.0], the highest of the two tags
    that satisfy [>=1.0.0]. *)
Lemma matchTag_passes_over_higher_tag :
  In "v2.0.0" unversioned_tags /\
  semver_satisfies Semver.api "2.0.0" ">=1.0.0" = true /\
  semver_satisfies Semver.api "1.0.0" ">=1.0.0" = true /\
  semver_satisfies Semver.api "next" ">=1.0.0" = false /\
  semver_lt Semver.api "v1.0.0" "v2.0.0" = true /\
  @matchTag Js.stable_engine Semver.api unversioned_tags ">=1.0.0" <> Some "v2.0.0".
Proof.
  split; [right; right; left; reflexivity|].
  split; [vm_compute; reflexivity|]. split; [vm_compute; reflexivity|].
  split; [vm_compute; reflexivity|]. split; [vm_compute; reflexivity|].
  intros H. vm_compute in H. discriminate H.
Qed.

(** C7: the comparison function answers "equal" for identical names and
    "before" for distinct names that the version comparison in use does not
    separate in its sense, "after" otherwise; for the descending order (the
    flag not set) the comparison in use is [semver.lt], so "before" is the
    answer for every pair that is not strictly less-than.  Two distinct
    names of equal precedence are thus each reported to stand before the
    other, and their order in the result is up to the engine: one insertion
    strategy keeps them as they came, the other swaps them. *)
Theorem comparator_tie_break (semver : semver_api) (desc : option bool) (a b : string) :
  cmp semver None = semver_lt semver /\
  (a = b -> comparator semver desc a b = 0%Z) /\
  (a <> b -> cmp semver desc a b = false -> comparator semver desc a b = (-1)%Z) /\
  (a <> b -> cmp semver desc a b = true -> comparator semver desc a b = 1%Z) /\
  (a <> b -> cmp semver desc a b = false -> cmp semver desc b a = false ->
   comparator semver desc a b = (-1)%Z /\
   comparator semver desc b a = (-1)%Z /\
   (version_tag a = true -> version_tag b = true ->
    @sortTags Js.stable_engine semver [a; b] desc = [a; b] /\
    @sortTags Js.eager_engine semver [a; b] desc = [b; a])).
Proof.
  assert (Hne : forall x y, x <> y -> cmp semver desc x y = false ->
                            comparator semver desc x y = (-1)%Z).
  { intros x y Hxy Hlt. unfold comparator.
    apply String.eqb_neq in Hxy. rewrite Hxy, Hlt. reflexivity. }
  split; [reflexivity|]. split; [|split; [|split]].
  - intros ->. unfold comparator. rewrite String.eqb_refl. reflexivity.
  - apply Hne.
  - intros Hab Hlt. unfold comparator.
    apply String.eqb_neq in Hab. rewrite Hab, Hlt. reflexivity.
  - intros Hab Hlt Hlt'.
    assert (Hba : b <> a) by congruence.
    pose proof (Hne a b Hab Hlt) as Ca. pose proof (Hne b a Hba Hlt') as Cb.
    split; [exact Ca|]. split; [exact Cb|].
    intros Hva Hvb. unfold sortTags. simpl List.filter. rewrite Hva, Hvb.
    unfold Js.array_sort, Js.stable_engine, Js.eager_engine, Js.insertion_sort.
    simpl. rewrite Ca, Cb. simpl. split; reflexivity.
Qed.

Lemma comparator_tie_break_witness :
  comparator Semver.api None "v1.0.0" "v1.0.0+build" = (-1)%Z /\
  comparator Semver.api None "v1.0.0+build" "v1.0.0" = (-1)%Z /\
  @sortTags Js.stable_engine Semver.api ["v1.0.0"; "v1.0.0+build"] None
    = ["v1.0.0"; "v1.0.0+build"] /\
  @sortTags Js.eager_engine Semver.api ["v1.0.0"; "v1.0.0+build"] None
    = ["v1.0.0+build"; "v1.0.0"].
Proof.
  destruct (comparator_tie_break Semver.api None "v1.0.0" "v1.0.0+build")
    as (_ & _ & _ & _ & H).
  assert (Hne : "v1.0.0" <> "v1.0.0+build") by discriminate.
  destruct (H Hne eq_refl eq_refl) as (Ca & Cb & Hsort).
  split; [exact Ca|]. split; [exact Cb|]. exact (Hsort eq_refl eq_refl).
Defined.

(** ** Strings *)

Lemma append_nil (s : string) : (EmptyString ++ s)%string = s.
Proof. reflexivity. Qed.

Lemma append_cons (c : ascii) (p s : string) :
  (String c p ++ s)%string = String c (p ++ s)%string.
Proof. reflexivity. Qed.




Lemma span_all (f : ascii -> bool) (a : string) (c : ascii) (rest : string) :
  Js.all_chars f a = true -> f c = false ->
  span f (a ++ String c rest)%string = (a, String c rest).
Proof.
  intros Ha Hc. induction a as [|x a IH].
  - rewrite append_nil. simpl. rewrite Hc. reflexivity.
  - simpl in Ha. apply andb_true_iff in Ha. destruct Ha as [Hx Ha].
    rewrite append_cons. simpl. rewrite Hx, (IH Ha). reflexivity.
Qed.






(** ** Remote Ref Reader *)

Lemma get_prototype (h : heap) : get h "__proto__" = SlotObjectPrototype.
Proof. reflexivity. Qed.

Lemma get_other (h : heap) (key : string) :
  key <> "__proto__" ->
  get h key =
  match own h !! key with
  | Some r => SlotRecord r
  | None =>
      if existsb (String.eqb key) object_prototype_functions then SlotFunction
      else match prototype_added h !! key with
           | Some s => SlotString s
           | None => SlotUndefined
           end
  end.
Proof.
  intros H. unfold get. apply String.eqb_neq in H. rewrite H. reflexivity.
Qed.

Lemma get_set_own (h : heap) (key : string) (r : TagRecord) :
  key <> "__proto__" -> get (set_own h key r) key = SlotRecord r.
Proof.
  intros H. rewrite (get_other _ _ H). unfold set_own. cbn [own].
  rewrite lookup_insert_eq. reflexivity.
Qed.

(** What a successful turn of the loop does to the own properties. *)
Lemma store_resolved (h h' : heap) (item : string) :
  store h item = Js.Resolved h' ->
  exists hash matched,
    match_ref "refs/tags/" item = Some (hash, matched) /\
    ((logical_tag matched = "__proto__" /\ own h' = own h) \/
     (logical_tag matched <> "__proto__" /\
      own h' =
      <[logical_tag matched :=
          with_name (logical_tag matched)
            (with_hash (Js.includes "^{}" matched) hash
               (default empty_record (own h !! logical_tag matched)))]> (own h))).
Proof.
  unfold store. fold (logical_tag).
  destruct (match_ref "refs/tags/" item) as [[hash matched]|]; [|intros H; discriminate H].
  fold (logical_tag matched). cbv zeta. intros H.
  exists hash, matched. split; [reflexivity|]. revert H.
  generalize (logical_tag matched) (Js.includes "^{}" matched). intros tag ann H.
  destruct (string_dec tag "__proto__") as [->|Hne].
  - left. split; [reflexivity|].
    rewrite get_prototype in H. cbn [truthy_slot] in H. rewrite get_prototype in H.
    injection H as <-. reflexivity.
  - right. split; [exact Hne|].
    assert (Hcreate :
      match get (set_own h tag empty_record) tag with
      | SlotRecord r =>
          Js.Resolved (set_own (set_own h tag empty_record) tag
                         (with_name tag (with_hash ann hash r)))
      | SlotObjectPrototype =>
          Js.Resolved
            {| own := own (set_own h tag empty_record);
               prototype_added :=
                 <["name" := tag]>
                   (<[hash_field ann := hash]>
                      (prototype_added (set_own h tag empty_record))) |}
      | SlotFunction =>
          Js.Rejected (TypeError "Cannot assign to read only property 'name' of function")
      | SlotString _ =>
          Js.Rejected (TypeError "Cannot create property on string")
      | SlotUndefined =>
          Js.Rejected (TypeError "Cannot set property of undefined")
      end = Js.Resolved h' ->
      own h !! tag = None ->
      own h' = <[tag := with_name tag (with_hash ann hash
                          (default empty_record (own h !! tag)))]> (own h)).
    { rewrite (get_set_own h tag empty_record Hne). intros Hr Hnone.
      injection Hr as <-. rewrite Hnone. unfold set_own. cbn [own default].
      apply insert_insert_eq. }
    rewrite (get_other h tag Hne) in H.
    destruct (own h !! tag) as [r|] eqn:Eown.
    + cbn [truthy_slot] in H. rewrite (get_other h tag Hne), Eown in H.
      injection H as <-. reflexivity.
    + destruct (existsb (String.eqb tag) object_prototype_functions) eqn:Efun.
      * cbn [truthy_slot] in H. rewrite (get_other h tag Hne), Eown, Efun in H.
        discriminate H.
      * destruct (prototype_added h !! tag) as [s|] eqn:Eadd.
        -- cbn [truthy_slot] in H. destruct (String.eqb s EmptyString) eqn:Es.
           ++ cbn [negb] in H. apply Hcreate; [exact H|reflexivity].
           ++ cbn [negb] in H.
              rewrite (get_other h tag Hne), Eown, Efun, Eadd in H.
              discriminate H.
        -- cbn [truthy_slot] in H. apply Hcreate; [exact H|reflexivity].
Qed.

(** Every rejection of the loop is the engine's [TypeError]. *)
Lemma store_rejected (h : heap) (item : string) (e : js_error) :
  store h item = Js.Rejected e -> exists message, e = TypeError message.
Proof.
  unfold store.
  destruct (match_ref "refs/tags/" item) as [[hash matched]|];
    [|intros [= <-]; eauto].
  match goal with |- context [get ?h1 ?t] => destruct (get h1 t) end;
    intros H; try discriminate H; injection H as <-; eauto.
Qed.

Lemma store_malformed (h : heap) (item : string) :
  match_ref "refs/tags/" item = None ->
  exists message, store h item = Js.Rejected (TypeError message).
Proof. intros H. unfold store. rewrite H. eauto. Qed.

Lemma store_all_rejected (items : list string) (h : heap) (e : js_error) :
  store_all items h = Js.Rejected e -> exists message, e = TypeError message.
Proof.
  revert h. induction items as [|item items IH]; intros h; simpl.
  - intros H. discriminate H.
  - destruct (store h item) as [h1|e1] eqn:E; simpl.
    + apply IH.
    + intros [= <-]. apply (store_rejected h item). exact E.
Qed.

Lemma store_all_malformed (items : list string) (h : heap) (item : string) :
  In item items -> match_ref "refs/tags/" item = None ->
  exists message, store_all items h = Js.Rejected (TypeError message).
Proof.
  intros Hin Hbad. revert h.
  induction items as [|x items IH]; intros h; [destruct Hin|].
  simpl. destruct (store h x) as [h1|e1] eqn:E; simpl.
  - destruct Hin as [->|Hin].
    + destruct (store_malformed h item Hbad) as [m Hm]. congruence.
    + apply IH. exact Hin.
  - destruct (store_rejected h x e1 E) as [m ->]. eauto.
Qed.




Lemma store_all_cons (item : string) (items : list string) (h h' : heap) :
  store_all (item :: items) h = Js.Resolved h' ->
  exists hm, store h item = Js.Resolved hm /\ store_all items hm = Js.Resolved h'.
Proof.
  simpl. destruct (store h item) as [hm|e]; simpl; [eauto|intros H; discriminate H].
Qed.








Section RemoteRefReaderFacts.
Variable exec : string -> Js.outcome js_error string.

(** C5: the lines [listTags] reads are those of the listing without the
    white space at its two ends.  When one of them does not match the
    pattern of a ref line, [listTags] fails: the call rejects (with the
    [TypeError] of reading a group of the [null] match), so the line is not
    skipped and no tags are returned; a call that returns tags has matched
    every one of these lines.  The white space at the two ends plays no
    role: two listings that differ in it only have the same outcome. *)
Theorem listTags_rejects_malformed (git stdout : string) :
  exec ("git ls-remote --tags " ++ git)%string = Js.Resolved stdout ->
  ((exists item, In item (Js.split_lines (Js.trim stdout)) /\
                 match_ref "refs/tags/" item = None) ->
   exists message, listTags exec git = Js.Rejected (TypeError message)) /\
  (forall tags, listTags exec git = Js.Resolved tags ->
                forall item, In item (Js.split_lines (Js.trim stdout)) ->
                             match_ref "refs/tags/" item <> None) /\
  (forall (exec' : string -> Js.outcome js_error string) (git' stdout' : string),
      exec' ("git ls-remote --tags " ++ git')%string = Js.Resolved stdout' ->
      Js.trim stdout' = Js.trim stdout ->
      listTags exec' git' = listTags exec git).
Proof.
  intros Hexec.
  assert (Hbad : forall item, In item (Js.split_lines (Js.trim stdout)) ->
                 match_ref "refs/tags/" item = None ->
                 exists message, listTags exec git = Js.Rejected (TypeError message)).
  { intros item Hin Hno. unfold listTags, parse_tags. rewrite Hexec. simpl.
    destruct (store_all_malformed _ initial_heap item Hin Hno) as [m Hm].
    rewrite Hm. simpl. eauto. }
  split; [|split].
  - intros (item & Hin & Hno). apply (Hbad item Hin Hno).
  - intros tags Hok item Hin Hno.
    destruct (Hbad item Hin Hno) as [m Hm]. congruence.
  - intros exec' git' stdout' Hexec' Htrim. unfold listTags, parse_tags.
    rewrite Hexec, Hexec'. cbn [Js.bind]. rewrite Htrim. reflexivity.
Qed.


End RemoteRefReaderFacts.

Lemma listTags_rejects_malformed_witness :
  (exists message,
      listTags (fun _ => Js.Resolved malformed_listing) "origin"
      = Js.Rejected (TypeError message)) /\
  listTags (fun _ => Js.Resolved indented_listing) "upstream"
  = listTags (fun _ => Js.Resolved
                (ref_line "5d41402abc4b2a76b9719d911017c592aa11bb22" "v1.0.0"))
             "origin".
Proof.
  split.
  - refine (proj1 (listTags_rejects_malformed
                     (fun _ => Js.Resolved malformed_listing) "origin"
                     malformed_listing eq_refl) _).
    exists "warning: redirecting to another remote". split.
    + vm_compute. right. left. reflexivity.
    + vm_compute. reflexivity.
  - refine (proj2 (proj2 (listTags_rejects_malformed
                     (fun _ => Js.Resolved
                        (ref_line "5d41402abc4b2a76b9719d911017c592aa11bb22" "v1.0.0"))
                     "origin" _ eq_refl))
              (fun _ => Js.Resolved indented_listing) "upstream"
              indented_listing eq_refl _).
    vm_compute. reflexivity.
Defined.

(** C5 as stated fails on the lines of the listing as it comes: here no
    line of the output matches the pattern (the first begins with a space,
    the second, after the final newline, is empty), and [listTags] returns
    the tag all the same, since [trim] removes the white space at both ends
    before the output is split.  And where [listTags] fails, the error is
    the [TypeError] of the engine, as above. *)
Lemma listTags_reads_trimmed_listing :
  map (match_ref "refs/tags/") (Js.split_lines indented_listing) = [None; None] /\
  listTags (fun _ => Js.Resolved indented_listing) "origin"
  = Js.Resolved
      {[ "v1.0.0" := {| commit := Some "5d41402abc4b2a76b9719d911017c592aa11bb22";
                        annotated := None; name := Some "v1.0.0" |} ]}.
Proof. split; vm_compute; reflexivity. Qed.


(** ** Trust Verifier *)

Lemma deliver_settled (s : supervision) (ev : child_event) (o : Js.outcome js_error unit) :
  settled s = Some o -> settled (deliver s ev) = Some o.
Proof.
  intros H. destruct ev as [err|code]; simpl.
  - destruct (error_listener s); [|exact H]. simpl. unfold settle.
    rewrite H. reflexivity.
  - destruct (close_listener s); [|exact H]. simpl. unfold settle.
    rewrite H. reflexivity.
Qed.

Lemma fold_deliver_settled (events : list child_event) (s : supervision)
    (o : Js.outcome js_error unit) :
  settled s = Some o -> settled (fold_left deliver events s) = Some o.
Proof.
  revert s. induction events as [|ev events IH]; intros s H; simpl; [exact H|].
  apply IH. apply deliver_settled. exact H.
Qed.

(** The first event of the child settles the promise. *)
Lemma supervise_first (ev : child_event) (events : list child_event) :
  settled (fold_left deliver (ev :: events) supervising) =
  Some match ev with
       | ChildError err => Js.Rejected err
       | ChildClose code => on_close code
       end.
Proof.
  simpl. apply fold_deliver_settled. destruct ev; reflexivity.
Qed.

Section TrustVerifierFacts.
Context {stdio_mode : Type}.
Variable spawn : string -> list string -> string -> stdio_mode -> list child_event.

(** C2, as the code has it: the promise is settled by the first event of
    the child.  A close with status 0 resolves it; a close with any other
    status (or with none, after a signal) rejects it with the one error
    "Could not verify signature."; an error event (the process could not be
    spawned) rejects it with that very error.  The call succeeds exactly
    when the first event is a close with status 0. *)
Theorem verifyRepo_settles_on_first_event
    (tag : option string) (commit dst : string) (stdio : stdio_mode) :
  let child := spawn "git" (verify_args tag commit) dst stdio in
  (child = [] -> verifyRepo spawn tag commit dst stdio = None) /\
  (forall rest, child = ChildClose (Some 0%Z) :: rest ->
                verifyRepo spawn tag commit dst stdio = Some (Js.Resolved tt)) /\
  (forall code rest, child = ChildClose code :: rest -> code <> Some 0%Z ->
                     verifyRepo spawn tag commit dst stdio
                     = Some (Js.Rejected could_not_verify)) /\
  (forall err rest, child = ChildError err :: rest ->
                    verifyRepo spawn tag commit dst stdio = Some (Js.Rejected err)) /\
  (verifyRepo spawn tag commit dst stdio = Some (Js.Resolved tt) <->
   exists rest, child = ChildClose (Some 0%Z) :: rest).
Proof.
  intros child. unfold verifyRepo. fold child.
  assert (Hclose : forall code, code <> Some 0%Z ->
                                on_close code = Js.Rejected could_not_verify).
  { intros [[|p|p]|] Hc; try reflexivity. contradiction. }
  split; [intros ->; reflexivity|].
  split; [intros rest ->; apply supervise_first|].
  split; [intros code rest -> Hc; rewrite supervise_first, (Hclose code Hc); reflexivity|].
  split; [intros err rest ->; apply supervise_first|].
  split.
  - destruct child as [|[err|code] rest].
    + intros H. discriminate H.
    + rewrite supervise_first. intros H. discriminate H.
    + rewrite supervise_first. intros H.
      destruct (option_eq_dec code (Some 0%Z)) as [->|Hc]; [eauto|].
      rewrite (Hclose code Hc) in H. discriminate H.
  - intros [rest ->]. apply supervise_first.
Qed.

End TrustVerifierFacts.

(** C2 as stated fails: after a spawn failure the rejection carries the
    spawn error, not the error "Could not verify signature.". *)
Lemma verifyRepo_spawn_error_surfaces :
  verifyRepo failed_spawn (Some "v1.0.0") "" "/nowhere" tt
  = Some (Js.Rejected spawn_failure) /\
  spawn_failure <> could_not_verify.
Proof. split; [reflexivity|discriminate]. Qed.

Lemma verifyRepo_settles_on_first_event_witness :
  verifyRepo failed_spawn None "5d41402abc4b2a76b9719d911017c592aa11bb22" "/nowhere" tt
  = Some (Js.Rejected spawn_failure).
Proof.
  exact (proj1 (proj2 (proj2 (proj2
    (verifyRepo_settles_on_first_event failed_spawn None
       "5d41402abc4b2a76b9719d911017c592aa11bb22" "/nowhere" tt))))
    spawn_failure [ChildClose (Some (-2)%Z)] eq_refl).
Defined.

(** ** The order of strings by code units *)

Lemma string_compare_refl (a : string) : String.compare a a = Eq.
Proof.
  induction a as [|c a IH]; [reflexivity|]. simpl.
  unfold Ascii.compare. rewrite N.compare_refl. exact IH.
Qed.

Lemma string_compare_lt_trans (a b c : string) :
  String.compare a b = Lt -> String.compare b c = Lt -> String.compare a c = Lt.
Proof.
  revert b c. induction a as [|x a IH]; intros [|y b] [|z c]; simpl;
    try discriminate; try reflexivity.
  unfold Ascii.compare.
  destruct (N.compare_spec (N_of_ascii x) (N_of_ascii y)) as [Exy|Lxy|Gxy];
    [|intros _|intros H; discriminate H].
  - rewrite Exy. destruct (N_of_ascii y ?= N_of_ascii z)%N; try discriminate.
    + apply IH.
    + reflexivity.
  - destruct (N.compare_spec (N_of_ascii y) (N_of_ascii z)) as [Eyz|Lyz|Gyz];
      [intros _|intros _|intros H; discriminate H].
    + rewrite <- Eyz. apply N.compare_lt_iff in Lxy. rewrite (proj2 (N.compare_lt_iff _ _) Lxy).
      reflexivity.
    + assert (L : (N_of_ascii x < N_of_ascii z)%N) by lia.
      rewrite (proj2 (N.compare_lt_iff _ _) L). reflexivity.
Qed.

Lemma string_le_trans (a b c : string) : string_le a b -> string_le b c -> string_le a c.
Proof.
  unfold string_le. intros Hab Hbc.
  destruct (String.compare a b) eqn:Eab; [| |contradiction].
  - apply String.compare_eq_iff in Eab. subst b. exact Hbc.
  - destruct (String.compare b c) eqn:Ebc; [| |contradiction].
    + apply String.compare_eq_iff in Ebc. subst c. rewrite Eab. discriminate.
    + rewrite (string_compare_lt_trans a b c Eab Ebc). discriminate.
Qed.

Lemma string_le_antisym (a b : string) : string_le a b -> string_le b a -> a = b.
Proof.
  unfold string_le. intros Hab Hba. rewrite String.compare_antisym in Hba.
  destruct (String.compare a b) eqn:Eab.
  - apply String.compare_eq_iff. exact Eab.
  - simpl in Hba. contradiction.
  - contradiction.
Qed.

Lemma default_compare_truthful (l : list string) :
  Js.truthful Js.default_compare string_le l.
Proof.
  intros a b _ _. unfold Js.default_compare, string_le.
  rewrite (String.compare_antisym b a).
  destruct (String.compare a b) eqn:E; simpl;
    (split; [|split]); intros H; try lia; try discriminate.
  split; discriminate.
Qed.

Section DefaultSort.
Context {engine : Js.SortEngine} {laws : Js.SortEngineLaws engine}.

Lemma default_sort_sorted (l : list string) :
  StronglySorted string_le (Js.array_sort Js.default_compare l).
Proof.
  apply Js.array_sort_sorted.
  - intros a b c _ _ _. apply string_le_trans.
  - apply default_compare_truthful.
Qed.

(** The sorted array depends on the elements only, not on their order. *)
Lemma default_sort_canonical (l1 l2 : list string) :
  Permutation l1 l2 ->
  Js.array_sort Js.default_compare l1 = Js.array_sort Js.default_compare l2.
Proof.
  intros Hperm.
  apply (StronglySorted_unique_strong string_le).
  - intros x1 x2 _ _. apply string_le_antisym.
  - apply default_sort_sorted.
  - apply default_sort_sorted.
  - rewrite (Js.array_sort_perm _ Js.default_compare l1).
    rewrite (Js.array_sort_perm _ Js.default_compare l2). exact Hperm.
Qed.

Lemma default_sort_singleton (x : string) :
  Js.array_sort Js.default_compare [x] = [x].
Proof.
  apply Permutation_length_1_inv. symmetry. apply Js.array_sort_perm.
Qed.

End DefaultSort.

(** ** Content Digest Engine *)

Lemma utf8_app (a b : string) : Js.utf8 (a ++ b)%string = Js.utf8 a ++ Js.utf8 b.
Proof.
  induction a as [|c a IH]; [reflexivity|].
  rewrite append_cons. simpl. rewrite IH, app_assoc. reflexivity.
Qed.

Lemma hex_length (d : list byte) : String.length (Js.hex d) = 2 * List.length d.
Proof. induction d as [|b d IH]; simpl; [reflexivity|]. rewrite IH. lia. Qed.

Lemma hex_byte_lowercase (b : byte) :
  is_hex (Js.hex_digit (Byte.to_N b / 16)) && is_hex (Js.hex_digit (Byte.to_N b mod 16))
  = true.
Proof. destruct b; vm_compute; reflexivity. Qed.

Lemma hex_lowercase (d : list byte) : Js.all_chars is_hex (Js.hex d) = true.
Proof.
  induction d as [|b d IH]; [reflexivity|].
  pose proof (hex_byte_lowercase b) as Hb. apply andb_true_iff in Hb.
  destruct Hb as [H1 H2]. simpl. rewrite H1, H2, IH. reflexivity.
Qed.

Lemma hex_byte_as_bytes (b : byte) :
  Js.utf8 (Js.hex [b])
  = [digit_byte (N.shiftr (Byte.to_N b) 4); digit_byte (N.land (Byte.to_N b) 15)].
Proof. destruct b; vm_compute; reflexivity. Qed.

Lemma hex_as_bytes (d : list byte) : Js.utf8 (Js.hex d) = hex_bytes d.
Proof.
  induction d as [|b d IH]; [reflexivity|].
  change (Js.hex (b :: d)) with (Js.hex [b] ++ Js.hex d)%string.
  rewrite utf8_app, IH, hex_byte_as_bytes. reflexivity.
Qed.

Lemma utf8_char_as_bytes (c : ascii) : Js.utf8_char c = utf8_unit c.
Proof. destruct c as [[] [] [] [] [] [] [] []]; vm_compute; reflexivity. Qed.

Lemma utf8_as_bytes (s : string) : Js.utf8 s = utf8_bytes s.
Proof.
  induction s as [|c s IH]; [reflexivity|].
  unfold utf8_bytes in *. cbn [Js.utf8 list_ascii_of_string flat_map].
  rewrite IH, utf8_char_as_bytes. reflexivity.
Qed.

Lemma manifest_line_as_bytes (d : list byte) (path : string) :
  Js.utf8 (manifest_line d path) = manifest_line_bytes d path.
Proof.
  unfold manifest_line, manifest_line_bytes.
  rewrite !utf8_app, hex_as_bytes, (utf8_as_bytes path). reflexivity.
Qed.

Lemma manifest_as_bytes (H : list byte -> list byte) (content : string -> list byte)
    (files : list string) :
  manifest H content files
  = flat_map (fun file => manifest_line_bytes (H (content file)) file) files.
Proof.
  unfold manifest. induction files as [|file files IH]; [reflexivity|].
  cbn [flat_map]. rewrite IH, manifest_line_as_bytes. reflexivity.
Qed.

Section ContentDigestFacts.
Context {engine : Js.SortEngine} {laws : Js.SortEngineLaws engine}.
Variable execFile : string -> list string -> string -> option js_error * string.
Variable createReadStream : string -> Js.outcome js_error (list byte).
Variable createHash : string -> option (list byte -> list byte).
Variable path_join : string -> string -> string.

Lemma listTree_resolved (dst stdout : string) :
  ls_tree execFile dst = (None, stdout) ->
  listTree execFile dst
  = Js.Resolved (Js.array_sort Js.default_compare (Js.split_lines (Js.trim stdout))).
Proof. unfold ls_tree, listTree. intros ->. reflexivity. Qed.

Lemma listTree_sorted (dst : string) (files : list string) :
  listTree execFile dst = Js.Resolved files -> StronglySorted string_le files.
Proof.
  unfold listTree.
  destruct (execFile _ _ dst) as [[e|] stdout]; intros H; [discriminate H|].
  injection H as <-. apply default_sort_sorted.
Qed.

Lemma checksum_resolved (file algo : string) (H : list byte -> list byte)
    (content : list byte) :
  createHash algo = Some H -> createReadStream file = Js.Resolved content ->
  checksum createReadStream createHash file algo = Js.Resolved (H content).
Proof.
  intros Hh Hr. unfold checksum, new_hash. rewrite Hh. simpl. rewrite Hr.
  reflexivity.
Qed.

Lemma treeHash_loop_resolved (base algo : string) (H : list byte -> list byte)
    (content : string -> list byte) (files : list string) (ctx : hash_context) :
  createHash algo = Some H ->
  (forall file, In file files ->
                createReadStream (path_join base file) = Js.Resolved (content file)) ->
  treeHash_loop createReadStream createHash path_join base algo files ctx
  = Js.Resolved {| algorithm := algorithm ctx;
                   written := written ctx ++ manifest H content files |}.
Proof.
  intros Hh. revert ctx. induction files as [|file files IH]; intros ctx Hr.
  - simpl. unfold manifest. simpl. rewrite app_nil_r. destruct ctx; reflexivity.
  - cbn [treeHash_loop].
    rewrite (checksum_resolved _ algo H (content file) Hh
               (Hr file (or_introl eq_refl))).
    cbn [Js.bind]. rewrite IH by (intros f Hf; apply Hr; right; exact Hf).
    unfold update, manifest, manifest_line. cbn [algorithm written flat_map].
    rewrite !utf8_app, <- !app_assoc. reflexivity.
Qed.

(** C3: [treeHash] feeds one hash context, for each file in the sorted
    order [listTree] returns, with exactly the bytes of the line made of the
    content digest in lowercase hexadecimal (two digits per byte, nothing
    between), two spaces, the relative path and one newline: the loop leaves
    the context it was given with these bytes written after what it held,
    and [treeHash] returns the digest of all that was fed. *)
Theorem treeHash_folds_manifest_lines (dst base algo : string)
    (files : list string) (H : list byte -> list byte) (content : string -> list byte) :
  listTree execFile dst = Js.Resolved files ->
  createHash algo = Some H ->
  (forall file, In file files ->
                createReadStream (path_join base file) = Js.Resolved (content file)) ->
  treeHash execFile createReadStream createHash path_join dst base algo
  = Js.Resolved
      (H (flat_map (fun file => manifest_line_bytes (H (content file)) file) files)) /\
  StronglySorted string_le files /\
  (forall ctx : hash_context,
      treeHash_loop createReadStream createHash path_join base algo files ctx
      = Js.Resolved
          {| algorithm := algorithm ctx;
             written :=
               written ctx
               ++ flat_map (fun file => manifest_line_bytes (H (content file)) file)
                    files |}).
Proof.
  intros Hl Hh Hr. split; [|split].
  - unfold treeHash. rewrite Hl. cbn [Js.bind]. unfold new_hash. rewrite Hh.
    cbn [Js.bind].
    rewrite (treeHash_loop_resolved base algo H content files _ Hh Hr).
    cbn [Js.bind]. unfold digest. cbn [algorithm written app].
    rewrite manifest_as_bytes. reflexivity.
  - apply (listTree_sorted dst). exact Hl.
  - intros ctx.
    rewrite (treeHash_loop_resolved base algo H content files ctx Hh Hr).
    rewrite manifest_as_bytes. reflexivity.
Qed.

(** C10: when the enumeration succeeds with an empty standard output,
    [listTree] resolves with the list whose one element is the empty
    string. *)
Theorem listTree_empty_output (dst : string) :
  execFile "git" ["ls-tree"; "--full-tree"; "-r"; "--name-only"; "HEAD"] dst
  = (None, EmptyString) ->
  listTree execFile dst = Js.Resolved [EmptyString] /\
  listTree execFile dst <> Js.Resolved [].
Proof.
  intros H. rewrite (listTree_resolved dst EmptyString H).
  change (Js.split_lines (Js.trim "")) with [EmptyString].
  rewrite default_sort_singleton. split; [reflexivity|discriminate].
Qed.

End ContentDigestFacts.

(** *** The listing and its lines *)

Lemma append_nil_r (s : string) : (s ++ EmptyString)%string = s.
Proof. induction s as [|c s IH]; [reflexivity|]. rewrite append_cons, IH. reflexivity. Qed.

Lemma append_assoc (a b c : string) : ((a ++ b) ++ c)%string = (a ++ (b ++ c))%string.
Proof.
  induction a as [|x a IH]; [reflexivity|]. rewrite !append_cons, IH. reflexivity.
Qed.

Lemma trimEnd_cons (c : ascii) (s : string) :
  Js.trimEnd (String c s) =
  match Js.trimEnd s with
  | EmptyString => if Js.is_space c then EmptyString else String c EmptyString
  | t => String c t
  end.
Proof. reflexivity. Qed.

Lemma trimEnd_app_nonblank (a b : string) :
  Js.trimEnd b <> EmptyString -> Js.trimEnd (a ++ b)%string = (a ++ Js.trimEnd b)%string.
Proof.
  intros Hb. induction a as [|c a IH]; [reflexivity|].
  rewrite !append_cons, trimEnd_cons, IH.
  destruct (a ++ Js.trimEnd b)%string eqn:E; [|reflexivity].
  destruct a; [rewrite append_nil in E; contradiction|discriminate E].
Qed.

Lemma trimEnd_last_ok (p : string) :
  last_ok p = true -> Js.trimEnd (p ++ line_feed)%string = p.
Proof.
  induction p as [|c p IH]; [intros H; discriminate H|].
  intros H. rewrite append_cons, trimEnd_cons.
  destruct p as [|d p].
  - rewrite append_nil. simpl in H. apply negb_true_iff in H.
    change (Js.trimEnd line_feed) with EmptyString. cbv iota. rewrite H. reflexivity.
  - rewrite IH by exact H. reflexivity.
Qed.

Lemma join_lines_nonempty (p : string) (rest : list string) :
  head_ok p = true -> join_lines (p :: rest) <> EmptyString.
Proof.
  destruct p as [|c p]; [intros H; discriminate H|]. intros _.
  destruct rest; simpl; [discriminate|]. rewrite append_cons. discriminate.
Qed.

Lemma trimEnd_unlines (paths : list string) :
  Forall (fun p => plain_path p = true) paths -> paths <> [] ->
  Js.trimEnd (unlines paths) = join_lines paths.
Proof.
  induction 1 as [|p rest Hp Hrest IH]; intros Hne; [contradiction|].
  unfold plain_path in Hp. apply andb_true_iff in Hp. destruct Hp as [Hp _].
  apply andb_true_iff in Hp. destruct Hp as [Hhead Hlast].
  destruct rest as [|q rest].
  - simpl. rewrite append_nil_r. apply trimEnd_last_ok. exact Hlast.
  - change (unlines (p :: q :: rest))
      with (p ++ line_feed ++ unlines (q :: rest))%string.
    change (join_lines (p :: q :: rest))
      with (p ++ line_feed ++ join_lines (q :: rest))%string.
    assert (Hq : Js.trimEnd (unlines (q :: rest)) = join_lines (q :: rest))
      by (apply IH; discriminate).
    assert (Hqne : join_lines (q :: rest) <> EmptyString).
    { apply join_lines_nonempty. inversion Hrest as [|? ? Hq' _]; subst.
      unfold plain_path in Hq'. apply andb_true_iff in Hq'. destruct Hq' as [Hq' _].
      apply andb_true_iff in Hq'. apply Hq'. }
    rewrite <- append_assoc, trimEnd_app_nonblank by (rewrite Hq; exact Hqne).
    rewrite Hq, append_assoc. reflexivity.
Qed.

Lemma trimStart_unlines (paths : list string) :
  Forall (fun p => plain_path p = true) paths ->
  Js.trimStart (unlines paths) = unlines paths.
Proof.
  intros H. destruct H as [|p rest Hp _]; [reflexivity|].
  unfold plain_path in Hp. apply andb_true_iff in Hp. destruct Hp as [Hp _].
  apply andb_true_iff in Hp. destruct Hp as [Hhead _].
  destruct p as [|c p]; [discriminate Hhead|].
  simpl in Hhead. apply negb_true_iff in Hhead.
  simpl unlines. rewrite append_cons. simpl. rewrite Hhead. reflexivity.
Qed.

Lemma split_lines_cons (c : ascii) (s : string) :
  Js.split_lines (String c s) =
  if Ascii.eqb c Js.newline then EmptyString :: Js.split_lines s
  else match Js.split_lines s with
       | h :: t => String c h :: t
       | [] => [String c EmptyString]
       end.
Proof. reflexivity. Qed.

Lemma split_lines_line (p rest : string) :
  no_newline p = true ->
  Js.split_lines (p ++ line_feed ++ rest)%string = p :: Js.split_lines rest.
Proof.
  unfold no_newline. induction p as [|c p IH]; intros H.
  - rewrite append_nil. unfold line_feed. rewrite append_cons, append_nil.
    rewrite split_lines_cons, Ascii.eqb_refl. reflexivity.
  - simpl in H. apply andb_true_iff in H. destruct H as [Hc Hp].
    apply negb_true_iff in Hc.
    rewrite append_cons, split_lines_cons, Hc, (IH Hp). reflexivity.
Qed.

Lemma split_lines_single (p : string) :
  no_newline p = true -> Js.split_lines p = [p].
Proof.
  unfold no_newline. induction p as [|c p IH]; intros H; [reflexivity|].
  simpl in H. apply andb_true_iff in H. destruct H as [Hc Hp].
  apply negb_true_iff in Hc. rewrite split_lines_cons, Hc, (IH Hp). reflexivity.
Qed.

Lemma split_join_lines (paths : list string) :
  Forall (fun p => plain_path p = true) paths -> paths <> [] ->
  Js.split_lines (join_lines paths) = paths.
Proof.
  induction 1 as [|p rest Hp Hrest IH]; intros Hne; [contradiction|].
  unfold plain_path in Hp. apply andb_true_iff in Hp. destruct Hp as [_ Hnl].
  destruct rest as [|q rest].
  - apply split_lines_single. exact Hnl.
  - change (join_lines (p :: q :: rest))
      with (p ++ line_feed ++ join_lines (q :: rest))%string.
    rewrite (split_lines_line _ _ Hnl), IH by discriminate. reflexivity.
Qed.

(** The lines [listTree] sorts are the paths that were printed. *)
Lemma lines_of_listing (paths : list string) :
  Forall (fun p => plain_path p = true) paths -> paths <> [] ->
  Js.split_lines (Js.trim (unlines paths)) = paths.
Proof.
  intros Hp Hne. unfold Js.trim.
  rewrite (trimStart_unlines paths Hp), (trimEnd_unlines paths Hp Hne).
  apply split_join_lines; assumption.
Qed.

Lemma split_lines_no_newline (s : string) :
  Forall (fun p => no_newline p = true) (Js.split_lines s).
Proof.
  induction s as [|c s IH]; [repeat constructor|].
  rewrite split_lines_cons. destruct (Ascii.eqb c Js.newline) eqn:E.
  - constructor; [reflexivity|exact IH].
  - destruct (Js.split_lines s) as [|h t]; [repeat constructor|].
    + unfold no_newline. simpl. rewrite E. reflexivity.
    + inversion IH as [|? ? Hh Ht]; subst. constructor; [|exact Ht].
      unfold no_newline in *. simpl. rewrite E, Hh. reflexivity.
Qed.

(** *** The manifest determines its entries *)

Lemma unhex_byte (b : byte) :
  Js.byte_of_N (16 * hex_value (Js.hex_digit (Byte.to_N b / 16))
                + hex_value (Js.hex_digit (Byte.to_N b mod 16))) = b.
Proof. destruct b; vm_compute; reflexivity. Qed.

Lemma unhex_hex (d : list byte) : unhex (Js.hex d) = d.
Proof.
  induction d as [|b d IH]; [reflexivity|].
  cbn [Js.hex unhex]. rewrite unhex_byte, IH. reflexivity.
Qed.

Lemma hex_inj (d1 d2 : list byte) : Js.hex d1 = Js.hex d2 -> d1 = d2.
Proof. intros H. rewrite <- (unhex_hex d1), <- (unhex_hex d2), H. reflexivity. Qed.

Lemma utf8_decode_char (c : ascii) (rest : list byte) :
  utf8_decode (Js.utf8_char c ++ rest) = String c (utf8_decode rest).
Proof.
  destruct c as [[] [] [] [] [] [] [] []]; reflexivity.
Qed.

Lemma utf8_decode_utf8 (s : string) : utf8_decode (Js.utf8 s) = s.
Proof.
  induction s as [|c s IH]; [reflexivity|].
  cbn [Js.utf8]. rewrite utf8_decode_char, IH. reflexivity.
Qed.

Lemma utf8_inj (s1 s2 : string) : Js.utf8 s1 = Js.utf8 s2 -> s1 = s2.
Proof.
  intros H. rewrite <- (utf8_decode_utf8 s1), <- (utf8_decode_utf8 s2), H.
  reflexivity.
Qed.

Lemma manifest_line_shape (d : list byte) (path rest : string) :
  (manifest_line d path ++ rest)%string
  = (Js.hex d ++ String " " (String " " (path ++ String Js.newline rest)))%string.
Proof.
  unfold manifest_line, line_feed.
  rewrite !append_assoc, !append_cons, !append_nil. reflexivity.
Qed.

Lemma manifest_text_inj (e1 e2 : list (list byte * string)) :
  Forall (fun e => no_newline (snd e) = true) e1 ->
  Forall (fun e => no_newline (snd e) = true) e2 ->
  manifest_text e1 = manifest_text e2 -> e1 = e2.
Proof.
  intros H1. revert e2.
  induction H1 as [|[d1 p1] e1 Hp1 _ IH]; intros e2 H2 Heq.
  - destruct e2 as [|[d2 p2] e2]; [reflexivity|].
    simpl in Heq. rewrite manifest_line_shape in Heq.
    destruct (Js.hex d2); discriminate Heq.
  - destruct H2 as [|[d2 p2] e2 Hp2 H2].
    + simpl in Heq. rewrite manifest_line_shape in Heq.
      destruct (Js.hex d1); discriminate Heq.
    + simpl in Heq. rewrite !manifest_line_shape in Heq.
      apply (f_equal (span is_hex)) in Heq.
      rewrite !span_all in Heq by (try apply hex_lowercase; reflexivity).
      injection Heq as Hd Hrest.
      apply (f_equal (span (fun c => negb (Ascii.eqb c Js.newline)))) in Hrest.
      simpl in Hp1, Hp2. unfold no_newline in Hp1, Hp2.
      rewrite !span_all in Hrest by (try assumption; reflexivity).
      injection Hrest as Hp Htext.
      apply hex_inj in Hd. subst. f_equal. apply IH; assumption.
Qed.

Lemma manifest_as_text (H : list byte -> list byte) (content : string -> list byte)
    (files : list string) :
  manifest H content files
  = Js.utf8 (manifest_text (map (fun file => (H (content file), file)) files)).
Proof.
  induction files as [|file files IH]; [reflexivity|].
  unfold manifest in *. cbn [flat_map map manifest_text].
  rewrite utf8_app, IH. reflexivity.
Qed.

Lemma byte_eq_dec (x y : byte) : {x = y} + {x <> y}.
Proof.
  destruct (Byte.eqb x y) eqn:E.
  - left. apply Byte.byte_dec_bl. exact E.
  - right. intros ->. rewrite (Byte.byte_dec_lb eq_refl) in E. discriminate E.
Qed.

Lemma map_digest_paths (H : list byte -> list byte) (c1 c2 : string -> list byte)
    (files : list string) :
  map (fun file => (H (c1 file), file)) files
  = map (fun file => (H (c2 file), file)) files ->
  forall file, In file files -> H (c1 file) = H (c2 file).
Proof.
  induction files as [|f files IH]; intros Hm file Hin; [destruct Hin|].
  injection Hm as Hd Hm. destruct Hin as [<-|Hin]; [exact Hd|].
  apply IH; assumption.
Qed.

(** Equal manifests list the same paths with the same digests. *)
Lemma manifest_inj (H : list byte -> list byte)
    (c1 c2 : string -> list byte) (files1 files2 : list string) :
  Forall (fun p => no_newline p = true) files1 ->
  Forall (fun p => no_newline p = true) files2 ->
  manifest H c1 files1 = manifest H c2 files2 ->
  files1 = files2 /\ forall file, In file files1 -> H (c1 file) = H (c2 file).
Proof.
  intros Hn1 Hn2 Hm. rewrite !manifest_as_text in Hm. apply utf8_inj in Hm.
  apply manifest_text_inj in Hm.
  2,3: rewrite List.Forall_map; simpl; assumption.
  assert (Hfiles : files1 = files2).
  { apply (f_equal (map snd)) in Hm. rewrite !map_map in Hm. simpl in Hm.
    rewrite !map_id in Hm. exact Hm. }
  subst files2. split; [reflexivity|]. apply map_digest_paths. exact Hm.
Qed.

Lemma contents_agree_or_differ (c1 c2 : string -> list byte) (files : list string) :
  (forall file, In file files -> c1 file = c2 file) \/
  (exists file, In file files /\ c1 file <> c2 file).
Proof.
  induction files as [|f files IH]; [left; intros file []|].
  destruct (List.list_eq_dec byte_eq_dec (c1 f) (c2 f)) as [Hc|Hc].
  - destruct IH as [Hall|(file & Hin & Hne)].
    + left. intros file [<-|Hin]; [exact Hc|apply Hall; exact Hin].
    + right. exists file. split; [right; exact Hin|exact Hne].
  - right. exists f. split; [left; reflexivity|exact Hc].
Qed.

(** *** Reproducibility *)

Section OneCheckout.
Context {engine : Js.SortEngine} {laws : Js.SortEngineLaws engine}.
Variable execFile : string -> list string -> string -> option js_error * string.
Variable createReadStream : string -> Js.outcome js_error (list byte).
Variable createHash : string -> option (list byte -> list byte).
Variable path_join : string -> string -> string.

Lemma treeHash_loop_reads (base algo : string) (H : list byte -> list byte)
    (files : list string) (ctx ctx' : hash_context) :
  createHash algo = Some H ->
  treeHash_loop createReadStream createHash path_join base algo files ctx
  = Js.Resolved ctx' ->
  forall file, In file files ->
    createReadStream (path_join base file)
    = Js.Resolved (content_of createReadStream path_join base file).
Proof.
  intros Hh. revert ctx. induction files as [|f files IH]; intros ctx Hrun file Hin.
  - destruct Hin.
  - cbn [treeHash_loop] in Hrun. unfold checksum, new_hash in Hrun.
    rewrite Hh in Hrun. cbn [Js.bind] in Hrun.
    destruct (createReadStream (path_join base f)) as [c|e] eqn:E;
      cbn [Js.bind] in Hrun; [|discriminate Hrun].
    destruct Hin as [<-|Hin].
    + unfold content_of. rewrite E. reflexivity.
    + apply (IH _ Hrun file Hin).
Qed.

Lemma listTree_no_newline (dst : string) (files : list string) :
  listTree execFile dst = Js.Resolved files ->
  Forall (fun p => no_newline p = true) files.
Proof.
  unfold listTree.
  destruct (execFile _ _ dst) as [[e|] stdout]; intros H; [discriminate H|].
  injection H as <-.
  apply (Permutation_Forall
           (Permutation_sym (Js.array_sort_perm _ Js.default_compare _))).
  apply split_lines_no_newline.
Qed.

Lemma treeHash_resolved (dst base algo : string) (H : list byte -> list byte)
    (files : list string) (d : list byte) :
  createHash algo = Some H ->
  listTree execFile dst = Js.Resolved files ->
  treeHash execFile createReadStream createHash path_join dst base algo
  = Js.Resolved d ->
  (forall file, In file files ->
     createReadStream (path_join base file)
    = Js.Resolved (content_of createReadStream path_join base file)) /\
  d = H (manifest H (content_of createReadStream path_join base) files).
Proof.
  intros Hh Hl Hrun. unfold treeHash in Hrun. rewrite Hl in Hrun.
  cbn [Js.bind] in Hrun. unfold new_hash in Hrun. rewrite Hh in Hrun.
  cbn [Js.bind] in Hrun.
  destruct (treeHash_loop createReadStream createHash path_join base algo files
              {| algorithm := H; written := [] |}) as [ctx'|e] eqn:E;
    cbn [Js.bind] in Hrun; [|discriminate Hrun].
  pose proof (treeHash_loop_reads base algo H files _ _ Hh E) as Hreads.
  split; [exact Hreads|].
  rewrite (treeHash_loop_resolved createReadStream createHash path_join base algo H
             (content_of createReadStream path_join base) files _ Hh Hreads) in E.
  injection E as <-. injection Hrun as <-. reflexivity.
Qed.

End OneCheckout.

Lemma treeHash_loop_ext (read1 read2 : string -> Js.outcome js_error (list byte))
    (createHash : string -> option (list byte -> list byte))
    (path_join : string -> string -> string)
    (base algo : string) (files : list string) (ctx : hash_context) :
  (forall file, In file files ->
                read1 (path_join base file) = read2 (path_join base file)) ->
  treeHash_loop read1 createHash path_join base algo files ctx
  = treeHash_loop read2 createHash path_join base algo files ctx.
Proof.
  revert ctx. induction files as [|f files IH]; intros ctx Hr; [reflexivity|].
  cbn [treeHash_loop]. unfold checksum.
  rewrite (Hr f (or_introl eq_refl)).
  destruct (new_hash createHash algo) as [h|e]; [|reflexivity]. cbn [Js.bind].
  destruct (read2 (path_join base f)) as [c|e]; [|reflexivity]. cbn [Js.bind].
  apply IH. intros file Hf. apply Hr. right. exact Hf.
Qed.

Section TwoCheckouts.
Context {engine : Js.SortEngine} {laws : Js.SortEngineLaws engine}.
Variable createHash : string -> option (list byte -> list byte).
Variable path_join : string -> string -> string.
Variables execFile1 execFile2 : string -> list string -> string -> option js_error * string.
Variables read1 read2 : string -> Js.outcome js_error (list byte).

(** C4, as the code has it, for checkouts whose paths are not empty, have
    no newline and neither begin nor end with white space.  Two runs that
    enumerate the same paths, in whatever order, and read the same contents
    yield the same outcome.  Two checkouts with the same tree hash have the
    same paths with the same contents, unless the contents of one path in
    the two checkouts, or the two manifests, are different inputs to which
    the digest algorithm gives one digest. *)
Theorem treeHash_reproducible (dst base algo : string) :
  (forall paths1 paths2 : list string,
      paths1 <> [] ->
      Forall (fun p => plain_path p = true) paths1 ->
      Permutation paths1 paths2 ->
      ls_tree execFile1 dst = (None, unlines paths1) ->
      ls_tree execFile2 dst = (None, unlines paths2) ->
      (forall p, In p paths1 -> read1 (path_join base p) = read2 (path_join base p)) ->
      treeHash execFile1 read1 createHash path_join dst base algo
      = treeHash execFile2 read2 createHash path_join dst base algo) /\
  (forall (H : list byte -> list byte) (paths1 paths2 : list string) (d : list byte),
      createHash algo = Some H ->
      paths1 <> [] -> paths2 <> [] ->
      Forall (fun p => plain_path p = true) paths1 ->
      Forall (fun p => plain_path p = true) paths2 ->
      ls_tree execFile1 dst = (None, unlines paths1) ->
      ls_tree execFile2 dst = (None, unlines paths2) ->
      treeHash execFile1 read1 createHash path_join dst base algo = Js.Resolved d ->
      treeHash execFile2 read2 createHash path_join dst base algo = Js.Resolved d ->
      (Permutation paths1 paths2 /\
       forall p, In p paths1 ->
                 read1 (path_join base p) = read2 (path_join base p)) \/
      (exists p, In p paths1 /\ In p paths2 /\
                 content_of read1 path_join base p <> content_of read2 path_join base p /\
                 H (content_of read1 path_join base p)
                 = H (content_of read2 path_join base p)) \/
      (manifest H (content_of read1 path_join base)
                (Js.array_sort Js.default_compare paths1)
       <> manifest H (content_of read2 path_join base)
                   (Js.array_sort Js.default_compare paths2) /\
       H (manifest H (content_of read1 path_join base)
                   (Js.array_sort Js.default_compare paths1))
       = H (manifest H (content_of read2 path_join base)
                     (Js.array_sort Js.default_compare paths2)))).
Proof.
  split.
  - intros paths1 paths2 Hne Hplain Hperm Hls1 Hls2 Hreads.
    assert (Hne2 : paths2 <> []).
    { intros ->. apply Permutation_nil_r in Hperm. contradiction. }
    assert (Hplain2 : Forall (fun p => plain_path p = true) paths2)
      by (apply (Permutation_Forall Hperm); exact Hplain).
    unfold treeHash.
    rewrite (listTree_resolved execFile1 dst _ Hls1).
    rewrite (listTree_resolved execFile2 dst _ Hls2).
    rewrite (lines_of_listing paths1 Hplain Hne).
    rewrite (lines_of_listing paths2 Hplain2 Hne2).
    rewrite (default_sort_canonical paths1 paths2 Hperm).
    cbn [Js.bind]. destruct (new_hash createHash algo) as [ctx|e]; [|reflexivity].
    cbn [Js.bind].
    rewrite (treeHash_loop_ext read1 read2 createHash path_join base algo); [reflexivity|].
    intros file Hf. apply Hreads.
    apply (Permutation_in _ (Js.array_sort_perm _ Js.default_compare paths2)) in Hf.
    apply (Permutation_in _ (Permutation_sym Hperm)). exact Hf.
  - intros H paths1 paths2 d Hh Hne1 Hne2 Hp1 Hp2 Hls1 Hls2 Hrun1 Hrun2.
    pose proof (listTree_resolved execFile1 dst _ Hls1) as Hl1.
    pose proof (listTree_resolved execFile2 dst _ Hls2) as Hl2.
    rewrite (lines_of_listing paths1 Hp1 Hne1) in Hl1.
    rewrite (lines_of_listing paths2 Hp2 Hne2) in Hl2.
    destruct (treeHash_resolved execFile1 read1 createHash path_join
                dst base algo H _ d Hh Hl1 Hrun1) as [Hr1 Hd1].
    destruct (treeHash_resolved execFile2 read2 createHash path_join
                dst base algo H _ d Hh Hl2 Hrun2) as [Hr2 Hd2].
    pose proof (Js.array_sort_perm _ Js.default_compare paths1) as Hs1.
    pose proof (Js.array_sort_perm _ Js.default_compare paths2) as Hs2.
    destruct (List.list_eq_dec byte_eq_dec
                (manifest H (content_of read1 path_join base)
                          (Js.array_sort Js.default_compare paths1))
                (manifest H (content_of read2 path_join base)
                          (Js.array_sort Js.default_compare paths2)))
      as [Hm|Hm]; [|right; right; split; [exact Hm|congruence]].
    apply manifest_inj in Hm.
    2: apply (listTree_no_newline execFile1 dst); exact Hl1.
    2: apply (listTree_no_newline execFile2 dst); exact Hl2.
    destruct Hm as [Hfiles Hdigests].
    assert (Hperm : Permutation paths1 paths2).
    { rewrite <- Hs1, Hfiles. exact Hs2. }
    destruct (contents_agree_or_differ (content_of read1 path_join base)
                (content_of read2 path_join base) paths1)
      as [Hall|(p & Hin & Hdiff)].
    + left. split; [exact Hperm|]. intros p Hin.
      rewrite (Hr1 p), (Hr2 p), (Hall p Hin); [reflexivity| |].
      * rewrite <- Hfiles. apply (Permutation_in _ (Permutation_sym Hs1)). exact Hin.
      * apply (Permutation_in _ (Permutation_sym Hs1)). exact Hin.
    + right. left. exists p. split; [exact Hin|].
      split; [apply (Permutation_in _ Hperm); exact Hin|].
      split; [exact Hdiff|]. apply Hdigests.
      apply (Permutation_in _ (Permutation_sym Hs1)). exact Hin.
Qed.

End TwoCheckouts.

(** ** Concrete checkouts *)


Lemma treeHash_folds_manifest_lines_witness :
  @treeHash Js.stable_engine (listing ("b" ++ line_feed ++ "a" ++ line_feed))
    small_checkout md5_only join_simple "/repo" "/repo" "md5"
  = Js.Resolved
      (Md5.md5
         (flat_map (fun file => manifest_line_bytes (Md5.md5 (small_contents file)) file)
                   ["a"; "b"])) /\
  flat_map (fun file => manifest_line_bytes (Md5.md5 (small_contents file)) file)
           ["a"; "b"]
  = small_manifest /\
  @treeHash Js.stable_engine (listing ("b" ++ line_feed ++ "a" ++ line_feed))
    small_checkout md5_only join_simple "/repo" "/repo" "md5"
  = Js.Resolved small_tree_hash.
Proof.
  assert (Hrun :
    @treeHash Js.stable_engine (listing ("b" ++ line_feed ++ "a" ++ line_feed))
      small_checkout md5_only join_simple "/repo" "/repo" "md5"
    = Js.Resolved
        (Md5.md5
           (flat_map (fun file => manifest_line_bytes (Md5.md5 (small_contents file)) file)
                     ["a"; "b"]))).
  { refine (proj1 (@treeHash_folds_manifest_lines Js.stable_engine stable_engine_laws
                (listing ("b" ++ line_feed ++ "a" ++ line_feed))
                small_checkout md5_only join_simple "/repo" "/repo" "md5"
                ["a"; "b"] Md5.md5 small_contents _ eq_refl _)).
    - vm_compute; reflexivity.
    - intros file [<-|[<-|[]]]; reflexivity. }
  assert (Hlines :
    flat_map (fun file => manifest_line_bytes (Md5.md5 (small_contents file)) file)
             ["a"; "b"]
    = small_manifest) by (vm_compute; reflexivity).
  assert (Hdigest : Md5.md5 small_manifest = small_tree_hash)
    by (vm_compute; reflexivity).
  split; [exact Hrun|]. split; [exact Hlines|].
  rewrite Hrun, Hlines, Hdigest. reflexivity.
Defined.

Lemma listTree_empty_output_witness :
  @listTree Js.stable_engine (listing EmptyString) "/repo" = Js.Resolved [EmptyString].
Proof.
  exact (proj1 (@listTree_empty_output Js.stable_engine stable_engine_laws
                  (listing EmptyString) "/repo" eq_refl)).
Defined.

Lemma treeHash_reproducible_witness :
  @treeHash Js.stable_engine (listing (unlines ["a"; "b"]))
    two_files md5_only join_simple "/repo" "/repo" "md5"
  = @treeHash Js.stable_engine (listing (unlines ["b"; "a"]))
      two_files md5_only join_simple "/repo" "/repo" "md5" /\
  exists p, In p ["a"] /\ In p ["a"] /\
    content_of (disk [("/repo/a", collision_a)]) join_simple "/repo" p
    <> content_of (disk [("/repo/a", collision_b)]) join_simple "/repo" p /\
    Md5.md5 (content_of (disk [("/repo/a", collision_a)]) join_simple "/repo" p)
    = Md5.md5 (content_of (disk [("/repo/a", collision_b)]) join_simple "/repo" p).
Proof.
  split.
  - refine (proj1 (@treeHash_reproducible Js.stable_engine stable_engine_laws
                     md5_only join_simple
                     (listing (unlines ["a"; "b"])) (listing (unlines ["b"; "a"]))
                     two_files two_files "/repo" "/repo" "md5")
              ["a"; "b"] ["b"; "a"] _ _ (perm_swap _ _ _) eq_refl eq_refl _).
    + discriminate.
    + repeat constructor.
    + reflexivity.
  - assert (Hne : ["a"] <> @nil string) by discriminate.
    assert (Hplain : Forall (fun p => plain_path p = true) ["a"])
      by (repeat constructor).
    destruct (proj2 (@treeHash_reproducible Js.stable_engine stable_engine_laws
                       md5_only join_simple
                       (listing (unlines ["a"])) (listing (unlines ["a"]))
                       (disk [("/repo/a", collision_a)])
                       (disk [("/repo/a", collision_b)]) "/repo" "/repo" "md5")
                Md5.md5 ["a"] ["a"] (unhex "c56c47022e2cbf7dbabbdc0c42411d3e")
                eq_refl Hne Hne Hplain Hplain eq_refl eq_refl)
      as [[_ Hsame]|[Hinner|[Hdiff _]]].
    + vm_compute; reflexivity.
    + vm_compute; reflexivity.
    + specialize (Hsame "a" (or_introl eq_refl)).
      vm_compute in Hsame. discriminate Hsame.
    + exact Hinner.
    + exfalso. apply Hdiff. vm_compute. reflexivity.
Defined.

(** C4 as stated fails twice.  With the algorithm [md5], replacing the
    content of the one file by a different content of the same digest leaves
    the tree hash unchanged.  And in a checkout with the files [b] and [b ]
    (the second name ending with a space) the listing loses its final space
    to [trim]: [b] is hashed twice and [b ] is never read, so changing its
    content leaves the tree hash unchanged. *)
Lemma treeHash_blind_to_changes :
  (@treeHash Js.stable_engine (listing (unlines ["a"]))
     (disk [("/repo/a", collision_a)]) md5_only join_simple "/repo" "/repo" "md5"
   = Js.Resolved (unhex "c56c47022e2cbf7dbabbdc0c42411d3e") /\
   @treeHash Js.stable_engine (listing (unlines ["a"]))
     (disk [("/repo/a", collision_b)]) md5_only join_simple "/repo" "/repo" "md5"
   = Js.Resolved (unhex "c56c47022e2cbf7dbabbdc0c42411d3e") /\
   collision_a <> collision_b) /\
  (@treeHash Js.stable_engine (listing (unlines ["b"; "b "]))
     (disk [("/repo/b", list_byte_of_string "beta");
            ("/repo/b ", list_byte_of_string "one")])
     md5_only join_simple "/repo" "/repo" "md5"
   = Js.Resolved (unhex "1389fcd4ea95cc6f59b90d621bb9ade4") /\
   @treeHash Js.stable_engine (listing (unlines ["b"; "b "]))
     (disk [("/repo/b", list_byte_of_string "beta");
            ("/repo/b ", list_byte_of_string "another")])
     md5_only join_simple "/repo" "/repo" "md5"
   = Js.Resolved (unhex "1389fcd4ea95cc6f59b90d621bb9ade4") /\
   list_byte_of_string "one" <> list_byte_of_string "another").
Proof.
  split; [split; [|split]|split; [|split]].
  - vm_compute; reflexivity.
  - vm_compute; reflexivity.
  - intros H; vm_compute in H; discriminate H.
  - vm_compute; reflexivity.
  - vm_compute; reflexivity.
  - discriminate.
Qed.

(** * Further properties *)

(** ** [trim] *)

Lemma trimStart_blank (a s : string) :
  blank a = true -> Js.trimStart (a ++ s)%string = Js.trimStart s.
Proof.
  unfold blank. induction a as [|c a IH]; intros H; [reflexivity|].
  simpl in H. apply andb_true_iff in H. destruct H as [Hc Ha].
  rewrite append_cons. simpl. rewrite Hc. apply IH. exact Ha.
Qed.

Lemma trimEnd_blank (b : string) : blank b = true -> Js.trimEnd b = EmptyString.
Proof.
  unfold blank. induction b as [|c b IH]; intros H; [reflexivity|].
  simpl in H. apply andb_true_iff in H. destruct H as [Hc Hb].
  rewrite trimEnd_cons, (IH Hb), Hc. reflexivity.
Qed.

Lemma trimStart_all_blank (s : string) : blank s = true -> Js.trimStart s = EmptyString.
Proof.
  intros H. rewrite <- (append_nil_r s), (trimStart_blank s EmptyString H).
  reflexivity.
Qed.

Lemma trim_blank (s : string) : blank s = true -> Js.trim s = EmptyString.
Proof. intros H. unfold Js.trim. rewrite (trimStart_all_blank s H). reflexivity. Qed.

Lemma trimEnd_core (p w : string) :
  last_ok p = true -> blank w = true -> Js.trimEnd (p ++ w)%string = p.
Proof.
  intros Hp Hw. induction p as [|c p IH]; [discriminate Hp|].
  rewrite append_cons, trimEnd_cons. destruct p as [|d p].
  - rewrite append_nil, (trimEnd_blank w Hw). simpl in Hp.
    apply negb_true_iff in Hp. rewrite Hp. reflexivity.
  - rewrite IH by exact Hp. reflexivity.
Qed.

Lemma trimStart_head_ok (p : string) : head_ok p = true -> Js.trimStart p = p.
Proof.
  destruct p as [|c p]; [reflexivity|]. simpl. intros H.
  apply negb_true_iff in H. rewrite H. reflexivity.
Qed.

Lemma head_ok_app (p w : string) : head_ok p = true -> head_ok (p ++ w)%string = true.
Proof. destruct p as [|c p]; [intros H; discriminate H|]. intros H. exact H. Qed.

(** What [trim] leaves of white space around a core that neither begins nor
    ends with white space. *)
Lemma trim_core (a p b : string) :
  blank a = true -> blank b = true -> head_ok p = true -> last_ok p = true ->
  Js.trim (a ++ p ++ b)%string = p.
Proof.
  intros Ha Hb Hh Hl. unfold Js.trim.
  rewrite (trimStart_blank a _ Ha), (trimStart_head_ok _ (head_ok_app p b Hh)).
  apply trimEnd_core; assumption.
Qed.

Lemma trimStart_shape (s : string) :
  Js.trimStart s = EmptyString \/ head_ok (Js.trimStart s) = true.
Proof.
  induction s as [|c s IH]; [left; reflexivity|]. simpl.
  destruct (Js.is_space c) eqn:E; [exact IH|]. right. simpl. rewrite E. reflexivity.
Qed.

Lemma trimEnd_shape (s : string) :
  Js.trimEnd s = EmptyString \/
  (last_ok (Js.trimEnd s) = true /\ (head_ok s = true -> head_ok (Js.trimEnd s) = true)).
Proof.
  induction s as [|c s IH]; [left; reflexivity|]. rewrite trimEnd_cons.
  destruct (Js.trimEnd s) as [|d t] eqn:E.
  - destruct (Js.is_space c) eqn:Ec; [left; reflexivity|].
    right. simpl. rewrite Ec. split; [reflexivity|intros _; reflexivity].
  - right. destruct IH as [IH|[IH _]]; [discriminate IH|].
    split; [exact IH|]. intros H. exact H.
Qed.

(** ** Remote Ref Reader, further *)

Lemma match_ref_empty (namespace : string) : match_ref namespace EmptyString = None.
Proof. reflexivity. Qed.

Lemma store_all_blank (stdout : string) :
  blank stdout = true ->
  exists message,
    store_all (Js.split_lines (Js.trim stdout)) initial_heap
    = Js.Rejected (TypeError message).
Proof.
  intros H. rewrite (trim_blank stdout H).
  apply (store_all_malformed _ initial_heap EmptyString); [left|]; reflexivity.
Qed.

Section RemoteRefReaderMore.
Variable exec : string -> Js.outcome js_error string.

(** X1: a listing that is empty or holds white space only (a remote without
    tags) makes [listTags] reject with a [TypeError]: the one line left after
    [trim] and [split] is the empty string, which does not match. *)
Theorem listTags_blank_output_rejects (git stdout : string) :
  exec ("git ls-remote --tags " ++ git)%string = Js.Resolved stdout ->
  blank stdout = true ->
  exists message, listTags exec git = Js.Rejected (TypeError message).
Proof.
  intros Hexec Hblank. unfold listTags, parse_tags. rewrite Hexec. cbn [Js.bind].
  destruct (store_all_blank stdout Hblank) as [m Hm]. rewrite Hm. eauto.
Qed.

End RemoteRefReaderMore.

Lemma listTags_blank_output_rejects_witness :
  exists message,
    listTags (fun _ => Js.Resolved line_feed) "origin" = Js.Rejected (TypeError message).
Proof.
  exact (listTags_blank_output_rejects (fun _ => Js.Resolved line_feed)
           "origin" line_feed eq_refl eq_refl).
Defined.

Lemma function_key_not_prototype (key : string) :
  In key object_prototype_functions -> key <> "__proto__".
Proof.
  intros H ->. revert H. unfold object_prototype_functions. simpl.
  intros H. repeat (destruct H as [H|H]; [discriminate H|]). exact H.
Qed.

Lemma store_function_key (h : heap) (item tag : string) :
  unshadowed (own h) -> item_tag item = Some tag ->
  In tag object_prototype_functions ->
  exists message, store h item = Js.Rejected (TypeError message).
Proof.
  intros [_ Hclean] Htag Hin. unfold item_tag in Htag. unfold store.
  destruct (match_ref "refs/tags/" item) as [[hash matched]|]; [|discriminate Htag].
  injection Htag as Htag. cbv zeta. fold (logical_tag matched). rewrite Htag.
  pose proof (function_key_not_prototype tag Hin) as Hne.
  assert (Hget : get h tag = SlotFunction).
  { rewrite (get_other h tag Hne), (Hclean tag Hin).
    replace (existsb (String.eqb tag) object_prototype_functions) with true; [reflexivity|].
    symmetry. apply existsb_exists. exists tag. split; [exact Hin|].
    apply String.eqb_refl. }
  rewrite Hget. cbn [truthy_slot]. rewrite Hget. eauto.
Qed.

Lemma store_unshadowed (h h' : heap) (item : string) :
  store h item = Js.Resolved h' -> unshadowed (own h) -> unshadowed (own h').
Proof.
  intros H Hclean.
  destruct (store_resolved h h' item H)
    as (hash & matched & Hm & [[_ ->]|[Hne ->]]); [exact Hclean|].
  assert (Hnf : ~ In (logical_tag matched) object_prototype_functions).
  { intros Hin.
    destruct (store_function_key h item (logical_tag matched) Hclean) as [m Hr];
      [unfold item_tag; rewrite Hm; reflexivity|exact Hin|].
    rewrite Hr in H. discriminate H. }
  destruct Hclean as [Hp Hf]. split.
  - rewrite lookup_insert_ne by exact Hne. exact Hp.
  - intros key Hk. rewrite lookup_insert_ne by (intros <-; contradiction).
    apply Hf. exact Hk.
Qed.

Lemma store_all_unshadowed (items : list string) (h h' : heap) :
  store_all items h = Js.Resolved h' -> unshadowed (own h) -> unshadowed (own h').
Proof.
  revert h. induction items as [|x items IH]; intros h H Hclean.
  - injection H as <-. exact Hclean.
  - destruct (store_all_cons _ _ _ _ H) as (hm & Hx & Hrest).
    apply (IH hm Hrest). apply (store_unshadowed h hm x Hx Hclean).
Qed.

Lemma store_all_function_key (items : list string) (h : heap) (item tag : string) :
  unshadowed (own h) -> In item items -> item_tag item = Some tag ->
  In tag object_prototype_functions ->
  exists message, store_all items h = Js.Rejected (TypeError message).
Proof.
  intros Hclean Hin Htag Hfun. revert h Hclean.
  induction items as [|x items IH]; intros h Hclean; [destruct Hin|].
  simpl. destruct (store h x) as [h1|e1] eqn:E; simpl.
  - destruct Hin as [->|Hin].
    + destruct (store_function_key h item tag Hclean Htag Hfun) as [m Hm].
      congruence.
    + apply (IH Hin). apply (store_unshadowed h h1 x E Hclean).
  - destruct (store_rejected h x e1 E) as [m ->]. eauto.
Qed.

Lemma initial_unshadowed : unshadowed (own initial_heap).
Proof. split; [|intros key _]; apply lookup_empty. Qed.

Section RemoteRefReaderPrototype.
Variable exec : string -> Js.outcome js_error string.

(** X2: a tag whose name is that of a function of [Object.prototype]
    ([constructor], [toString], [valueOf], ...) makes [listTags] reject with
    a [TypeError]: [tags[tag]] finds the inherited function, and the
    assignment to its read-only [name] throws in strict mode. *)
Theorem listTags_prototype_function_tag_rejects (git stdout item tag : string) :
  exec ("git ls-remote --tags " ++ git)%string = Js.Resolved stdout ->
  In item (Js.split_lines (Js.trim stdout)) ->
  item_tag item = Some tag ->
  In tag object_prototype_functions ->
  exists message, listTags exec git = Js.Rejected (TypeError message).
Proof.
  intros Hexec Hin Htag Hfun. unfold listTags, parse_tags. rewrite Hexec.
  cbn [Js.bind].
  destruct (store_all_function_key _ initial_heap item tag
              initial_unshadowed Hin Htag Hfun) as [m Hm].
  rewrite Hm. eauto.
Qed.

(** X3: the tags [listTags] returns never hold a record under [__proto__]
    or under the name of a function of [Object.prototype]; a tag named
    [__proto__] is accepted and leaves no record. *)
Theorem listTags_never_shadows_prototype (git : string) (tags : gmap string TagRecord) :
  listTags exec git = Js.Resolved tags ->
  tags !! "__proto__" = None /\
  forall key, In key object_prototype_functions -> tags !! key = None.
Proof.
  unfold listTags, parse_tags.
  destruct (exec _) as [stdout|e]; cbn [Js.bind]; [|intros H; discriminate H].
  destruct (store_all _ initial_heap) as [h|e] eqn:Hrun; cbn [Js.bind];
    intros H; [|discriminate H].
  injection H as <-.
  apply (store_all_unshadowed _ _ _ Hrun initial_unshadowed).
Qed.

End RemoteRefReaderPrototype.

Lemma listTags_prototype_function_tag_rejects_witness :
  exists message,
    listTags (fun _ => Js.Resolved constructor_listing) "origin"
    = Js.Rejected (TypeError message).
Proof.
  refine (listTags_prototype_function_tag_rejects
            (fun _ => Js.Resolved constructor_listing) "origin" constructor_listing
            (ref_line "7c211433f02071597741e6ff5a8ea34789abbf43" "constructor")
            "constructor" eq_refl _ _ _).
  - vm_compute. right. left. reflexivity.
  - vm_compute. reflexivity.
  - left. reflexivity.
Defined.

Lemma listTags_never_shadows_prototype_witness :
  listTags (fun _ => Js.Resolved proto_listing) "origin" = Js.Resolved ∅ /\
  (∅ : gmap string TagRecord) !! "__proto__" = None.
Proof.
  assert (Hrun : listTags (fun _ => Js.Resolved proto_listing) "origin" = Js.Resolved ∅)
    by (vm_compute; reflexivity).
  split; [exact Hrun|].
  exact (proj1 (listTags_never_shadows_prototype
                  (fun _ => Js.Resolved proto_listing) "origin" ∅ Hrun)).
Defined.




Section RemoteRefReaderLookup.
Variable exec : string -> Js.outcome js_error string.


End RemoteRefReaderLookup.


(** *** The dereference marker inside a name *)






Section RemoteRefReaderMarker.
Variable exec : string -> Js.outcome js_error string.


End RemoteRefReaderMarker.


(** ** [listBranches] *)



Lemma store_branches_malformed (items : list string) (m : gmap string string)
    (item : string) :
  In item items -> match_ref "refs/heads/" item = None ->
  exists message, store_branches items m = Js.Rejected (TypeError message).
Proof.
  intros Hin Hbad. revert m.
  induction items as [|x items IH]; intros m; [destruct Hin|].
  simpl. unfold store_branch at 1.
  destruct (match_ref "refs/heads/" x) as [[hash name]|] eqn:Hm.
  - destruct Hin as [->|Hin]; [congruence|].
    destruct (String.eqb name "__proto__"); cbn [Js.bind]; apply IH; exact Hin.
  - cbn [Js.bind]. eauto.
Qed.

Section BranchReaderFacts.
Variable exec : string -> Js.outcome js_error string.


(** X7: [listBranches] rejects with a [TypeError] when a line of the
    trimmed listing is no line of [refs/heads/], and so when the listing is
    empty or white space only (a remote without branches). *)
Theorem listBranches_rejects_malformed (git stdout : string) :
  exec ("git ls-remote --heads " ++ git)%string = Js.Resolved stdout ->
  (exists item, In item (Js.split_lines (Js.trim stdout)) /\
                match_ref "refs/heads/" item = None) \/ blank stdout = true ->
  exists message, listBranches exec git = Js.Rejected (TypeError message).
Proof.
  intros Hexec H. unfold listBranches, parse_branches. rewrite Hexec.
  cbn [Js.bind]. destruct H as [(item & Hin & Hbad)|Hblank].
  - apply (store_branches_malformed _ ∅ item Hin Hbad).
  - rewrite (trim_blank stdout Hblank).
    apply (store_branches_malformed _ ∅ EmptyString); [left|]; reflexivity.
Qed.

End BranchReaderFacts.


Lemma listBranches_rejects_malformed_witness :
  exists message,
    listBranches (fun _ => Js.Resolved EmptyString) "origin"
    = Js.Rejected (TypeError message).
Proof.
  exact (listBranches_rejects_malformed (fun _ => Js.Resolved EmptyString)
           "origin" EmptyString eq_refl (or_intror eq_refl)).
Defined.

(** ** Version Selector, further *)

Lemma separatesb_sound (R : string -> string -> bool) (l : list string) :
  separatesb R l = true -> separates R l.
Proof.
  unfold separatesb, separates. rewrite forallb_forall. intros H a b Ha Hb Hab Hba.
  specialize (H a Ha). rewrite forallb_forall in H. specialize (H b Hb).
  rewrite Hab, Hba in H. simpl in H. apply String.eqb_eq. exact H.
Qed.

Lemma conversesb_sound (gt lt : string -> string -> bool) (l : list string) :
  conversesb gt lt l = true ->
  forall a b, In a l -> In b l -> gt a b = lt b a.
Proof.
  unfold conversesb. rewrite forallb_forall. intros H a b Ha Hb.
  specialize (H a Ha). rewrite forallb_forall in H. specialize (H b Hb).
  apply Bool.eqb_prop. exact H.
Qed.

Lemma filter_permutation {A : Type} (f : A -> bool) (l1 l2 : list A) :
  Permutation l1 l2 -> Permutation (List.filter f l1) (List.filter f l2).
Proof.
  induction 1 as [|x l1 l2 _ IH|x y l|l1 l2 l3 _ IH1 _ IH2]; simpl.
  - constructor.
  - destruct (f x); [constructor|]; exact IH.
  - destruct (f x), (f y); try reflexivity. apply perm_swap.
  - exact (Permutation_trans IH1 IH2).
Qed.

Lemma strongly_sorted_weaken {A : Type} (R R' : A -> A -> Prop) (l : list A) :
  (forall a b, In a l -> In b l -> R a b -> R' a b) ->
  StronglySorted R l -> StronglySorted R' l.
Proof.
  intros Himp Hs. induction Hs as [|x l Hl IH Hx]; [constructor|].
  constructor.
  - apply IH. intros a b Ha Hb. apply Himp; right; assumption.
  - rewrite List.Forall_forall in Hx |- *. intros y Hy.
    apply Himp; [left; reflexivity|right; exact Hy|apply Hx; exact Hy].
Qed.

Lemma strict_weak_on_incl (R : string -> string -> bool) (l l' : list string) :
  (forall a, In a l' -> In a l) -> strict_weak_on R l -> strict_weak_on R l'.
Proof.
  intros Hincl [H1 H2]. split.
  - intros a b Ha Hb. apply H1; apply Hincl; assumption.
  - intros a b c Ha Hb Hc. apply H2; apply Hincl; assumption.
Qed.

Section Canonical.
Context {engine1 : Js.SortEngine} {laws1 : Js.SortEngineLaws engine1}.
Context {engine2 : Js.SortEngine} {laws2 : Js.SortEngineLaws engine2}.
Context (semver : semver_api).

(** X8: when no two distinct version tags have the same precedence, the
    result of [sortTags] does not depend on the order in which the tags are
    given nor on the sorting algorithm of the engine. *)
Theorem sortTags_canonical (tags1 tags2 : list string) (desc : option bool) :
  Permutation tags1 tags2 ->
  strict_weak_on (cmp semver desc) (List.filter version_tag tags1) ->
  separates (cmp semver desc) (List.filter version_tag tags1) ->
  @sortTags engine1 semver tags1 desc = @sortTags engine2 semver tags2 desc.
Proof.
  intros Hperm Hswo Hsep.
  pose proof (filter_permutation version_tag _ _ Hperm) as Hf.
  assert (Hswo2 : strict_weak_on (cmp semver desc) (List.filter version_tag tags2)).
  { apply (strict_weak_on_incl _ _ _ (fun a => Permutation_in a (Permutation_sym Hf)) Hswo). }
  pose proof (@sortTags_perm engine1 laws1 semver tags1 desc) as P1.
  pose proof (@sortTags_perm engine2 laws2 semver tags2 desc) as P2.
  apply (StronglySorted_unique_strong (fun a b => cmp semver desc a b = false)).
  - intros x1 x2 H1 H2. apply Hsep.
    + apply list_elem_of_In in H1. apply (Permutation_in _ P1). exact H1.
    + apply list_elem_of_In in H2. apply (Permutation_in _ (Permutation_sym Hf)).
      apply (Permutation_in _ P2). exact H2.
  - apply (@sortTags_sorted engine1 laws1). exact Hswo.
  - apply (@sortTags_sorted engine2 laws2). exact Hswo2.
  - rewrite P1, P2. exact Hf.
Qed.

(** X9: when [semver.gt] is the converse of [semver.lt] on the version tags
    and no two distinct ones have the same precedence, the ascending result
    of [sortTags] (the flag set) is the descending one reversed. *)
Theorem sortTags_ascending_is_reverse (tags : list string) :
  strict_weak_on (semver_lt semver) (List.filter version_tag tags) ->
  separates (semver_lt semver) (List.filter version_tag tags) ->
  (forall a b, In a (List.filter version_tag tags) ->
               In b (List.filter version_tag tags) ->
               semver_gt semver a b = semver_lt semver b a) ->
  @sortTags engine1 semver tags (Some true) = rev (@sortTags engine2 semver tags None).
Proof.
  intros Hswo Hsep Hconv.
  set (vt := List.filter version_tag tags) in *.
  assert (Hgt : strict_weak_on (cmp semver (Some true)) vt).
  { change (cmp semver (Some true)) with (semver_gt semver).
    destruct Hswo as [Hasym Hneg]. split.
    - intros a b Ha Hb. rewrite (Hconv a b Ha Hb), (Hconv b a Hb Ha).
      intros H. destruct (semver_lt semver a b) eqn:E; [|reflexivity].
      rewrite (Hasym a b Ha Hb E) in H. discriminate H.
    - intros a b c Ha Hb Hc.
      rewrite (Hconv a b Ha Hb), (Hconv b c Hb Hc), (Hconv a c Ha Hc).
      intros H1 H2. apply (Hneg c b a); assumption. }
  pose proof (@sortTags_perm engine1 laws1 semver tags (Some true)) as P1.
  pose proof (@sortTags_perm engine2 laws2 semver tags None) as P2.
  fold vt in P1, P2.
  apply (StronglySorted_unique_strong (fun a b => semver_lt semver b a = false)).
  - intros x1 x2 H1 H2 Hx Hy. symmetry. apply Hsep; [| |exact Hx|exact Hy].
    + apply list_elem_of_In in H2. apply in_rev in H2.
      apply (Permutation_in _ P2). exact H2.
    + apply list_elem_of_In in H1. apply (Permutation_in _ P1). exact H1.
  - apply (strongly_sorted_weaken (fun a b => semver_gt semver a b = false)).
    + intros a b Ha Hb H. rewrite <- (Hconv a b); [exact H| |].
      * apply (Permutation_in _ P1). exact Ha.
      * apply (Permutation_in _ P1). exact Hb.
    + apply (@sortTags_sorted engine1 laws1 semver tags (Some true)). exact Hgt.
  - apply (sorted_rev_rev (fun a b => semver_lt semver b a = false)).
    apply (@sortTags_sorted engine2 laws2 semver tags None). exact Hswo.
  - rewrite P1, <- Permutation_rev, P2. reflexivity.
Qed.

(** X10: when no two distinct version tags have the same precedence, the
    tag [matchTag] selects does not depend on the order in which the tags
    are given nor on the sorting algorithm of the engine. *)
Theorem matchTag_canonical (tags1 tags2 : list string) (needed : string) :
  Permutation tags1 tags2 ->
  strict_weak_on (semver_lt semver) (List.filter version_tag tags1) ->
  separates (semver_lt semver) (List.filter version_tag tags1) ->
  @matchTag engine1 semver tags1 needed = @matchTag engine2 semver tags2 needed.
Proof.
  intros Hperm Hswo Hsep. unfold matchTag.
  rewrite (sortTags_canonical tags1 tags2 None Hperm Hswo Hsep). reflexivity.
Qed.

End Canonical.

Lemma shuffled_permutation : Permutation example_tags shuffled_tags.
Proof.
  unfold example_tags, shuffled_tags.
  exact (Permutation_trans (perm_skip "v1.0.0" (perm_swap "v2.0.0-rc" "v1.2.0" []))
                           (perm_swap "v2.0.0-rc" "v1.0.0" ["v1.2.0"])).
Defined.

Lemma example_strict_weak :
  strict_weak_on (semver_lt Semver.api) (List.filter version_tag example_tags).
Proof. apply strict_weak_onb_sound. vm_compute. reflexivity. Defined.

Lemma example_separates :
  separates (semver_lt Semver.api) (List.filter version_tag example_tags).
Proof. apply separatesb_sound. vm_compute. reflexivity. Defined.

Lemma sortTags_canonical_witness :
  @sortTags Js.stable_engine Semver.api example_tags None
  = @sortTags Js.eager_engine Semver.api shuffled_tags None.
Proof.
  exact (@sortTags_canonical Js.stable_engine stable_engine_laws
           Js.eager_engine eager_engine_laws Semver.api
           example_tags shuffled_tags None shuffled_permutation
           example_strict_weak example_separates).
Defined.

Lemma sortTags_ascending_is_reverse_witness :
  @sortTags Js.stable_engine Semver.api example_tags (Some true)
  = rev (@sortTags Js.eager_engine Semver.api example_tags None).
Proof.
  refine (@sortTags_ascending_is_reverse Js.stable_engine stable_engine_laws
            Js.eager_engine eager_engine_laws Semver.api example_tags
            example_strict_weak example_separates _).
  apply conversesb_sound. vm_compute. reflexivity.
Defined.

Lemma matchTag_canonical_witness :
  @matchTag Js.stable_engine Semver.api example_tags "^1.0.0"
  = @matchTag Js.eager_engine Semver.api shuffled_tags "^1.0.0".
Proof.
  exact (@matchTag_canonical Js.stable_engine stable_engine_laws
           Js.eager_engine eager_engine_laws Semver.api
           example_tags shuffled_tags "^1.0.0" shuffled_permutation
           example_strict_weak example_separates).
Defined.

Lemma sortTags_tie_pair (semver : semver_api) (a b : string) :
  a <> b -> version_tag a = true -> version_tag b = true ->
  semver_lt semver a b = false -> semver_lt semver b a = false ->
  @sortTags Js.stable_engine semver [a; b] None = [a; b] /\
  @sortTags Js.eager_engine semver [a; b] None = [b; a].
Proof.
  intros Hab Hva Hvb Hlt Hlt'.
  assert (Ca : comparator semver None a b = (-1)%Z).
  { unfold comparator, cmp. simpl. apply String.eqb_neq in Hab.
    rewrite Hab, Hlt. reflexivity. }
  assert (Cb : comparator semver None b a = (-1)%Z).
  { unfold comparator, cmp. simpl.
    rewrite (proj2 (String.eqb_neq b a)) by congruence. rewrite Hlt'. reflexivity. }
  unfold sortTags. simpl List.filter. rewrite Hva, Hvb.
  unfold Js.array_sort, Js.stable_engine, Js.eager_engine, Js.insertion_sort.
  simpl. rewrite Ca, Cb. simpl. split; reflexivity.
Qed.

(** X11: when two distinct version tags of equal precedence both satisfy
    the constraint, the tag [matchTag] selects depends on the sorting
    algorithm of the engine: for the pair alone, stable insertion selects
    the first given, the other insertion strategy the second. *)
Theorem matchTag_tie_depends_on_engine (semver : semver_api) (a b needed : string) :
  a <> b ->
  semver_lt semver (String "v" a) (String "v" b) = false ->
  semver_lt semver (String "v" b) (String "v" a) = false ->
  semver_satisfies semver a needed = true ->
  semver_satisfies semver b needed = true ->
  @matchTag Js.stable_engine semver [String "v" a; String "v" b] needed
  = Some (String "v" a) /\
  @matchTag Js.eager_engine semver [String "v" a; String "v" b] needed
  = Some (String "v" b).
Proof.
  intros Hab Hlt Hlt' Ha Hb.
  assert (Hne : String "v" a <> String "v" b) by congruence.
  assert (Hva : version_tag (String "v" a) = true) by (apply version_tag_spec; eauto).
  assert (Hvb : version_tag (String "v" b) = true) by (apply version_tag_spec; eauto).
  destruct (sortTags_tie_pair semver _ _ Hne Hva Hvb Hlt Hlt') as [Hs He].
  unfold matchTag. rewrite Hs, He. cbn [find].
  rewrite !replace_leading_v, Ha, Hb. split; reflexivity.
Qed.

Lemma matchTag_tie_depends_on_engine_witness :
  @matchTag Js.stable_engine Semver.api ["v1.0.0"; "v1.0.0+build"] "^1.0.0"
  = Some "v1.0.0" /\
  @matchTag Js.eager_engine Semver.api ["v1.0.0"; "v1.0.0+build"] "^1.0.0"
  = Some "v1.0.0+build".
Proof.
  refine (matchTag_tie_depends_on_engine Semver.api "1.0.0" "1.0.0+build" "^1.0.0"
            _ eq_refl eq_refl eq_refl eq_refl).
  discriminate.
Defined.

(** ** [getHeadCommit], [cloneRepo] and [cloneFiles] *)

Section HeadCommitFacts.
Variable exec_in : string -> string -> Js.outcome js_error string.

(** X12: [getHeadCommit] resolves with the output of [git rev-parse HEAD]
    without the white space around it: the result is empty or neither
    begins nor ends with white space, and it is the core of an output made
    of white space, a core that neither begins nor ends with white space,
    and white space. *)
Theorem getHeadCommit_trims (git stdout : string) :
  exec_in "git rev-parse HEAD" git = Js.Resolved stdout ->
  exists commit_hash,
    getHeadCommit exec_in git = Js.Resolved commit_hash /\
    (commit_hash = EmptyString \/
     (head_ok commit_hash = true /\ last_ok commit_hash = true)) /\
    (forall a p b, stdout = (a ++ p ++ b)%string ->
                   blank a = true -> blank b = true ->
                   head_ok p = true -> last_ok p = true -> commit_hash = p).
Proof.
  intros Hexec. exists (Js.trim stdout). unfold getHeadCommit. rewrite Hexec.
  split; [reflexivity|]. split.
  - unfold Js.trim. destruct (trimStart_shape stdout) as [E|Hh].
    + rewrite E. left. reflexivity.
    + destruct (trimEnd_shape (Js.trimStart stdout)) as [E|[Hl Hk]];
        [left; exact E|right]. split; [apply Hk; exact Hh|exact Hl].
  - intros a p b -> Ha Hb Hh Hl. apply trim_core; assumption.
Qed.

End HeadCommitFacts.

Lemma getHeadCommit_trims_witness :
  exists commit_hash,
    getHeadCommit (fun _ _ => Js.Resolved
                     ("5d41402abc4b2a76b9719d911017c592aa11bb22" ++ line_feed)%string)
      "/repo" = Js.Resolved commit_hash /\
    commit_hash = "5d41402abc4b2a76b9719d911017c592aa11bb22".
Proof.
  destruct (getHeadCommit_trims
              (fun _ _ => Js.Resolved
                 ("5d41402abc4b2a76b9719d911017c592aa11bb22" ++ line_feed)%string)
              "/repo" _ eq_refl) as (commit_hash & Hrun & _ & Hcore).
  exists commit_hash. split; [exact Hrun|].
  apply (Hcore EmptyString "5d41402abc4b2a76b9719d911017c592aa11bb22" line_feed);
    reflexivity.
Defined.

(** X13: [cloneRepo] and [cloneFiles] put their arguments into the command
    line as they are, with a space between them: a destination with a space
    in it gives the very command line of a longer repository argument and a
    shorter destination. *)
Theorem clone_arguments_run_together {exec_result : Type}
    (exec : string -> Js.outcome js_error exec_result) (tag git a b : string) :
  cloneRepo exec tag git (a ++ " " ++ b) = cloneRepo exec tag (git ++ " " ++ a) b /\
  cloneFiles exec git (a ++ " " ++ b) = cloneFiles exec (git ++ " " ++ a) b.
Proof.
  unfold cloneRepo, cloneFiles. rewrite !append_assoc. split; reflexivity.
Qed.

(** ** Content Digest Engine, further *)

Lemma default_sort_any_engine
    (engine1 : Js.SortEngine) (laws1 : Js.SortEngineLaws engine1)
    (engine2 : Js.SortEngine) (laws2 : Js.SortEngineLaws engine2) (l : list string) :
  @Js.array_sort engine1 _ Js.default_compare l
  = @Js.array_sort engine2 _ Js.default_compare l.
Proof.
  apply (StronglySorted_unique_strong string_le).
  - intros x1 x2 _ _. apply string_le_antisym.
  - apply (@default_sort_sorted engine1 laws1).
  - apply (@default_sort_sorted engine2 laws2).
  - rewrite (@Js.array_sort_perm engine1 laws1 _ Js.default_compare l).
    rewrite (@Js.array_sort_perm engine2 laws2 _ Js.default_compare l). reflexivity.
Qed.

Lemma split_lines_nonempty (s : string) : Js.split_lines s <> [].
Proof.
  destruct s as [|c s]; [discriminate|]. rewrite split_lines_cons.
  destruct (Ascii.eqb c Js.newline); [discriminate|].
  destruct (Js.split_lines s); discriminate.
Qed.

Section ListTreeFacts.
Context {engine1 : Js.SortEngine} {laws1 : Js.SortEngineLaws engine1}.
Context {engine2 : Js.SortEngine} {laws2 : Js.SortEngineLaws engine2}.
Variable execFile : string -> list string -> string -> option js_error * string.

(** X14: when the enumeration succeeds, [listTree] resolves with the lines
    of the trimmed output rearranged in the order of their code units: the
    list is never empty, no entry holds a newline, and it is the same for
    every sorting algorithm of the engine. *)
Theorem listTree_sorted_lines (dst stdout : string) :
  ls_tree execFile dst = (None, stdout) ->
  exists files,
    @listTree engine1 execFile dst = Js.Resolved files /\
    @listTree engine2 execFile dst = Js.Resolved files /\
    Permutation files (Js.split_lines (Js.trim stdout)) /\
    StronglySorted string_le files /\
    files <> [] /\
    Forall (fun p => no_newline p = true) files.
Proof.
  intros Hls.
  exists (@Js.array_sort engine1 _ Js.default_compare (Js.split_lines (Js.trim stdout))).
  pose proof (@Js.array_sort_perm engine1 laws1 _ Js.default_compare
                (Js.split_lines (Js.trim stdout))) as Hperm.
  split; [apply (@listTree_resolved engine1); exact Hls|].
  split.
  { rewrite (@listTree_resolved engine2 execFile dst stdout Hls).
    rewrite (default_sort_any_engine engine1 laws1 engine2 laws2). reflexivity. }
  split; [exact Hperm|]. split; [apply (@default_sort_sorted engine1 laws1)|].
  split.
  - intros E. rewrite E in Hperm. apply Permutation_nil in Hperm.
    apply (split_lines_nonempty _ Hperm).
  - apply (Permutation_Forall (Permutation_sym Hperm)). apply split_lines_no_newline.
Qed.

End ListTreeFacts.

Lemma listTree_sorted_lines_witness :
  exists files,
    @listTree Js.stable_engine (listing ("b" ++ line_feed ++ "a" ++ line_feed)) "/repo"
    = Js.Resolved files /\
    @listTree Js.eager_engine (listing ("b" ++ line_feed ++ "a" ++ line_feed)) "/repo"
    = Js.Resolved files.
Proof.
  destruct (@listTree_sorted_lines Js.stable_engine stable_engine_laws
              Js.eager_engine eager_engine_laws
              (listing ("b" ++ line_feed ++ "a" ++ line_feed)) "/repo" _ eq_refl)
    as (files & H1 & H2 & _).
  exists files. split; assumption.
Defined.

Section TreeHashErrors.
Context {engine : Js.SortEngine} {laws : Js.SortEngineLaws engine}.
Variable execFile : string -> list string -> string -> option js_error * string.
Variable createReadStream : string -> Js.outcome js_error (list byte).
Variable createHash : string -> option (list byte -> list byte).
Variable path_join : string -> string -> string.

Lemma treeHash_loop_rejected (base algo : string) (H : list byte -> list byte)
    (content : string -> list byte) (pre post : list string) (file : string)
    (e : js_error) (ctx : hash_context) :
  createHash algo = Some H ->
  (forall p, In p pre ->
             createReadStream (path_join base p) = Js.Resolved (content p)) ->
  createReadStream (path_join base file) = Js.Rejected e ->
  treeHash_loop createReadStream createHash path_join base algo
    (pre ++ file :: post) ctx = Js.Rejected e.
Proof.
  intros Hh Hpre Hfile. revert ctx. induction pre as [|p pre IH]; intros ctx.
  - cbn [app treeHash_loop]. unfold checksum, new_hash. rewrite Hh. cbn [Js.bind].
    rewrite Hfile. reflexivity.
  - cbn [app treeHash_loop].
    rewrite (checksum_resolved createReadStream createHash _ algo H (content p) Hh
               (Hpre p (or_introl eq_refl))).
    cbn [Js.bind]. apply IH. intros q Hq. apply Hpre. right. exact Hq.
Qed.

(** X15: [treeHash] rejects with the error of the enumeration when that
    fails; with the error of the unknown digest algorithm when the
    enumeration succeeds and the algorithm is unknown, whatever the files;
    and otherwise with the error of the first file, in sorted order, that
    cannot be read. *)
Theorem treeHash_rejections (dst base algo : string) :
  (forall e stdout,
      ls_tree execFile dst = (Some e, stdout) ->
      treeHash execFile createReadStream createHash path_join dst base algo
      = Js.Rejected e) /\
  (forall files,
      listTree execFile dst = Js.Resolved files ->
      createHash algo = None ->
      treeHash execFile createReadStream createHash path_join dst base algo
      = Js.Rejected (Error "Digest method not supported")) /\
  (forall H content pre file post e,
      listTree execFile dst = Js.Resolved (pre ++ file :: post) ->
      createHash algo = Some H ->
      (forall p, In p pre ->
                 createReadStream (path_join base p) = Js.Resolved (content p)) ->
      createReadStream (path_join base file) = Js.Rejected e ->
      treeHash execFile createReadStream createHash path_join dst base algo
      = Js.Rejected e).
Proof.
  split; [|split].
  - intros e stdout Hls. unfold treeHash, listTree. unfold ls_tree in Hls.
    rewrite Hls. reflexivity.
  - intros files Hl Hh. unfold treeHash. rewrite Hl. cbn [Js.bind].
    unfold new_hash. rewrite Hh. reflexivity.
  - intros H content pre file post e Hl Hh Hpre Hfile. unfold treeHash.
    rewrite Hl. cbn [Js.bind]. unfold new_hash. rewrite Hh. cbn [Js.bind].
    rewrite (treeHash_loop_rejected base algo H content pre post file e _ Hh Hpre Hfile).
    reflexivity.
Qed.

(** X16: for a checkout without tracked files (the enumeration succeeds
    with an output that is empty or white space only) [treeHash] does not
    return the digest of the empty manifest: it reads the base path itself
    as the one file, under the empty relative path, and rejects when that
    cannot be read as a file. *)
Theorem treeHash_without_tracked_files (dst base algo stdout : string)
    (H : list byte -> list byte) :
  ls_tree execFile dst = (None, stdout) ->
  blank stdout = true ->
  createHash algo = Some H ->
  (forall e, createReadStream (path_join base EmptyString) = Js.Rejected e ->
             treeHash execFile createReadStream createHash path_join dst base algo
             = Js.Rejected e) /\
  (forall content,
      createReadStream (path_join base EmptyString) = Js.Resolved content ->
      treeHash execFile createReadStream createHash path_join dst base algo
      = Js.Resolved (H (Js.utf8 (Js.hex (H content) ++ "  " ++ line_feed)%string))).
Proof.
  intros Hls Hblank Hh.
  assert (Hl : listTree execFile dst = Js.Resolved [EmptyString]).
  { rewrite (listTree_resolved execFile dst stdout Hls), (trim_blank stdout Hblank).
    change (Js.split_lines "") with [EmptyString].
    rewrite default_sort_singleton. reflexivity. }
  split.
  - intros e He. unfold treeHash. rewrite Hl. cbn [Js.bind]. unfold new_hash. rewrite Hh.
    cbn [Js.bind treeHash_loop]. unfold checksum, new_hash. rewrite Hh.
    cbn [Js.bind]. rewrite He. reflexivity.
  - intros content Hc. unfold treeHash. rewrite Hl. cbn [Js.bind].
    unfold new_hash. rewrite Hh. cbn [Js.bind].
    rewrite (treeHash_loop_resolved createReadStream createHash path_join base algo H
               (fun _ => content) [EmptyString] _ Hh).
    + cbn [Js.bind]. unfold digest, manifest, manifest_line.
      cbn [algorithm written flat_map app]. rewrite app_nil_r, append_nil.
      reflexivity.
    + intros file [<-|[]]. exact Hc.
Qed.

End TreeHashErrors.

Lemma treeHash_rejections_witness :
  @treeHash Js.stable_engine (listing ("a" ++ line_feed ++ "c" ++ line_feed))
    two_files md5_only join_simple "/repo" "/repo" "md5"
  = Js.Rejected (SystemError "ENOENT").
Proof.
  refine (proj2 (proj2 (@treeHash_rejections Js.stable_engine
            (listing ("a" ++ line_feed ++ "c" ++ line_feed))
            two_files md5_only join_simple "/repo" "/repo" "md5"))
          Md5.md5 two_contents ["a"] "c" [] (SystemError "ENOENT") _ eq_refl _ eq_refl).
  - vm_compute. reflexivity.
  - intros p [<-|[]]. reflexivity.
Defined.

Lemma treeHash_without_tracked_files_witness :
  @treeHash Js.stable_engine (listing EmptyString) two_files md5_only join_simple
    "/repo" "/repo" "md5"
  = Js.Rejected (SystemError "ENOENT").
Proof.
  exact (proj1 (@treeHash_without_tracked_files Js.stable_engine stable_engine_laws
                  (listing EmptyString) two_files md5_only join_simple
                  "/repo" "/repo" "md5" EmptyString Md5.md5 eq_refl eq_refl eq_refl)
           (SystemError "ENOENT") eq_refl).
Defined.

Section ManifestEntries.
Context {engine : Js.SortEngine} {laws : Js.SortEngineLaws engine}.
Variable createHash : string -> option (list byte -> list byte).
Variable path_join : string -> string -> string.
Variables execFile1 execFile2 : string -> list string -> string -> option js_error * string.
Variables read1 read2 : string -> Js.outcome js_error (list byte).

(** X17: what the loop of [treeHash] writes to the hash context determines
    the entries of the manifest: when the loop, run on the listings of two
    checkouts from one context, leaves the same bytes written, the two
    listings are the same and [checksum] gives the same digest for every
    listed file in the two checkouts. *)
Theorem manifest_determines_entries (dst base algo : string)
    (H : list byte -> list byte) (files1 files2 : list string)
    (ctx ctx1 ctx2 : hash_context) :
  createHash algo = Some H ->
  listTree execFile1 dst = Js.Resolved files1 ->
  listTree execFile2 dst = Js.Resolved files2 ->
  treeHash_loop read1 createHash path_join base algo files1 ctx = Js.Resolved ctx1 ->
  treeHash_loop read2 createHash path_join base algo files2 ctx = Js.Resolved ctx2 ->
  written ctx1 = written ctx2 ->
  files1 = files2 /\
  forall file, In file files1 ->
    checksum read1 createHash (path_join base file) algo
    = checksum read2 createHash (path_join base file) algo.
Proof.
  intros Hh Hl1 Hl2 Hrun1 Hrun2 Hw.
  pose proof (treeHash_loop_reads read1 createHash path_join base algo H
                files1 ctx ctx1 Hh Hrun1) as Hr1.
  pose proof (treeHash_loop_reads read2 createHash path_join base algo H
                files2 ctx ctx2 Hh Hrun2) as Hr2.
  rewrite (treeHash_loop_resolved read1 createHash path_join base algo H
             (content_of read1 path_join base) files1 ctx Hh Hr1) in Hrun1.
  rewrite (treeHash_loop_resolved read2 createHash path_join base algo H
             (content_of read2 path_join base) files2 ctx Hh Hr2) in Hrun2.
  injection Hrun1 as <-. injection Hrun2 as <-. cbn [written] in Hw.
  apply app_inv_head in Hw. apply manifest_inj in Hw.
  2: apply (listTree_no_newline execFile1 dst); exact Hl1.
  2: apply (listTree_no_newline execFile2 dst); exact Hl2.
  destruct Hw as [Hfiles Hdigests]. split; [exact Hfiles|].
  intros file Hin.
  rewrite (checksum_resolved read1 createHash _ algo H _ Hh (Hr1 file Hin)).
  rewrite (checksum_resolved read2 createHash _ algo H _ Hh
             (Hr2 file (eq_ind _ (In file) Hin _ Hfiles))).
  rewrite (Hdigests file Hin). reflexivity.
Qed.

End ManifestEntries.

Lemma manifest_determines_entries_witness :
  ["a"] = ["a"] /\
  forall file, In file ["a"] ->
    checksum (disk [("/repo/a", collision_a)]) md5_only (join_simple "/repo" file) "md5"
    = checksum (disk [("/repo/a", collision_b)]) md5_only (join_simple "/repo" file) "md5".
Proof.
  refine (@manifest_determines_entries Js.stable_engine stable_engine_laws
            md5_only join_simple (listing (unlines ["a"])) (listing (unlines ["a"]))
            (disk [("/repo/a", collision_a)]) (disk [("/repo/a", collision_b)])
            "/repo" "/repo" "md5" Md5.md5 ["a"] ["a"]
            {| algorithm := Md5.md5; written := [] |}
            {| algorithm := Md5.md5;
               written := [] ++ manifest Md5.md5 (fun _ => collision_a) ["a"] |}
            {| algorithm := Md5.md5;
               written := [] ++ manifest Md5.md5 (fun _ => collision_b) ["a"] |}
            eq_refl eq_refl eq_refl _ _ _).
  - apply (treeHash_loop_resolved (disk [("/repo/a", collision_a)]) md5_only
             join_simple "/repo" "md5" Md5.md5 (fun _ => collision_a) ["a"]
             {| algorithm := Md5.md5; written := [] |} eq_refl).
    intros file [<-|[]]. reflexivity.
  - apply (treeHash_loop_resolved (disk [("/repo/a", collision_b)]) md5_only
             join_simple "/repo" "md5" Md5.md5 (fun _ => collision_b) ["a"]
             {| algorithm := Md5.md5; written := [] |} eq_refl).
    intros file [<-|[]]. reflexivity.
  - vm_compute. reflexivity.
Defined.
